(** * tracer/gen: type resolution, import aliasing and signature emission

    A shallow embedding of [gen/gen.go]: the recursive type-parameter model,
    [buildImportMap], [resolveParam], [generateMethodSig] and the builder's
    writing primitives, together with the properties the specification
    states about them. *)

From Stdlib Require Import Ascii String ZArith List.
From stdpp Require Import base gmap strings list fin_maps sorting pretty.

Local Open Scope string_scope.

(** ** The type model (package [parse/types]) *)

Module types.

(** Modelled from the spec: the declarations of package [parse/types] are not
    part of the sources at hand; the variants and their fields are those of
    section 3 of the specification, under the field names [gen.go] reads
    ([Typ], [Pkg], [Length], [Key], [Elem], [Methods], [Params], [Returns]).
    [Param] is an open Go interface: [OtherParam] stands for a value of any
    dynamic type other than the seven below (the [nil] interface value
    included), which is what the [default] arms of the type switches see. *)
Inductive Param : Type :=
  | BasicParam (Typ : string)
  | NamedParam (Pkg Typ : string)
  | ArrayParam (Typ : Param) (Length : Z)
  | SliceParam (Typ : Param)
  | PointerParam (Typ : Param)
  | MapParam (Key Elem : Param)
  | InterfaceParam (Methods : list Method)
  | OtherParam (dyn : string)
with Method : Type :=
  | mkMethod (Name : string) (Params Returns : list Param).

Definition MName (m : Method) : string := let 'mkMethod n _ _ := m in n.
Definition MParams (m : Method) : list Param := let 'mkMethod _ ps _ := m in ps.
Definition MReturns (m : Method) : list Param := let 'mkMethod _ _ rs := m in rs.

Record Interface : Type := mkInterface {
  IName : string;
  IMethods : list Method
}.

Record Attr : Type := mkAttr {
  AName : string;
  AType : Param
}.

Record Struct : Type := mkStruct {
  SName : string;
  SAttrs : list Attr
}.

Record Package : Type := mkPackage {
  Name : string;
  PkgPath : string;
  Interfaces : list Interface;
  Structs : list Struct
}.

End types.

Import types.

(** ** Formatted output (package [fmt])

    Byte constants that a Rocq string literal cannot hold directly. *)

Definition nl : string := String (ascii_of_nat 10) EmptyString.
Definition dq : string := String (ascii_of_nat 34) EmptyString.

Module fmt.

(** Operands of a formatting call: [gen.go] passes strings and integers. *)
Inductive Arg : Type :=
  | AStr (s : string)
  | AInt (n : Z).

Definition describe (x : Arg) : string :=
  match x with
  | AStr s => "string=" ++ s
  | AInt n => "int=" ++ pretty n
  end.

(** One operand under one verb: [%s] and [%v] print a string as it is, [%d]
    and [%v] print an integer in decimal, and a string under [%d] or an
    integer under [%s] is reported as [%!d(string=...)] or [%!s(int=...)].
    The other verbs of [fmt] ([%q], [%x], ...) occur in no format of
    [gen.go]; they are not interpreted and fall under the same report. *)
Definition verb (c : ascii) (x : Arg) : string :=
  match x with
  | AStr s =>
      if bool_decide (c = "s"%char ∨ c = "v"%char) then s
      else "%!" ++ String c "(" ++ describe x ++ ")"
  | AInt n =>
      if bool_decide (c = "d"%char ∨ c = "v"%char) then pretty n
      else "%!" ++ String c "(" ++ describe x ++ ")"
  end.

Fixpoint describe_all (a : list Arg) : string :=
  match a with
  | [] => ""
  | [x] => describe x
  | x :: a' => describe x ++ ", " ++ describe_all a'
  end.

Definition extra (a : list Arg) : string :=
  match a with
  | [] => ""
  | _ => "%!(EXTRA " ++ describe_all a ++ ")"
  end.

(** [fmt.Sprintf] for the formats this program builds: literal bytes, [%%],
    and a [%] directly followed by a verb byte. Operands are consumed left to
    right, a verb without operand prints [%!c(MISSING)], a trailing [%]
    prints [%!(NOVERB)] and left-over operands are listed as [EXTRA].
    Flags, widths, precisions and explicit operand indexes occur in no format
    literal of [gen.go] and are not interpreted: on a format that holds one,
    and on verbs other than [%s], [%d] and [%v], this function differs from
    [fmt]. The only format of [gen.go] that is not a literal is the joined
    import lines that [writeImports] hands to [Write]; what is proved of it
    is proved for lines without [%]. *)
Fixpoint Sprintf (format : string) (a : list Arg) : string :=
  match format with
  | EmptyString => extra a
  | String c rest =>
      if bool_decide (c = "%"%char) then
        match rest with
        | EmptyString => "%!(NOVERB)" ++ extra a
        | String v rest' =>
            if bool_decide (v = "%"%char) then String v (Sprintf rest' a)
            else
              match a with
              | [] => "%!" ++ String v "(MISSING)" ++ Sprintf rest' []
              | x :: a' => verb v x ++ Sprintf rest' a'
              end
        end
      else String c (Sprintf rest a)
  end.

End fmt.

Import fmt.

(** ** The builder *)

(** [buf] is the content of the shared [*bytes.Buffer]; every writing method
    returns the builder with the buffer it leaves behind. *)
Record builder : Type := mkBuilder {
  buf : string;
  importMap : gmap string string
}.

Definition Write (b : builder) (str : string) (a : list Arg) : builder :=
  {| buf := buf b ++ Sprintf str a; importMap := importMap b |}.

Definition WriteLine (b : builder) (str : string) (a : list Arg) : builder :=
  Write b (str ++ nl) a.

(** ** Method signatures *)

(** The parameter loop of [generateMethodSig]: [i] is the loop index, [n] is
    [len(params)] and [w] the text written so far. *)
Fixpoint writeSigParams (n i : nat) (params : list string) (w : string) : string :=
  match params with
  | [] => w
  | param :: params' =>
      let w := w ++ Sprintf "p%d %s" [AInt (Z.of_nat i); AStr param] in
      let w := if bool_decide (i < n - 1)%nat then w ++ ", " else w in
      writeSigParams n (S i) params' w
  end.

(** The return loop of [generateMethodSig]. *)
Fixpoint writeSigReturns (i : nat) (returns : list string) (w : string) : string :=
  match returns with
  | [] => w
  | r :: returns' =>
      let w := if bool_decide (0 < i)%nat then w ++ ", " else w in
      let w := w ++ r in
      writeSigReturns (S i) returns' w
  end.

(** [generateMethodSig b implementor methodName params returns]: [w] is what
    the writer [b] has received so far, the result what it has received when
    the call returns. *)
Definition generateMethodSig (w : string) (implementor methodName : string)
    (params returns : list string) : string :=
  let w := if bool_decide (implementor ≠ "")
           then w ++ Sprintf "(t %s) " [AStr implementor] else w in
  let w := w ++ Sprintf "%s(" [AStr methodName] in
  let w := writeSigParams (length params) 0 params w in
  let w := w ++ ")" in
  let w := if bool_decide (0 < length returns)%nat then w ++ " " else w in
  let w := if bool_decide (1 < length returns)%nat then w ++ "(" else w in
  let w := writeSigReturns 0 returns w in
  let w := if bool_decide (1 < length returns)%nat then w ++ ")" else w in
  w.

(** ** Type resolution *)

Fixpoint resolveParam (b : builder) (p : Param) : string :=
  let resolveParams := map (resolveParam b) in
  match p with
  | BasicParam Typ => Typ
  | NamedParam Pkg Typ =>
      if bool_decide (Pkg ≠ "") then
        match importMap b !! Pkg with
        | Some alias => Sprintf "%s.%s" [AStr alias; AStr Typ]
        | None => Typ
        end
      else Typ
  | ArrayParam Typ Length =>
      Sprintf "[%d]%s" [AInt Length; AStr (resolveParam b Typ)]
  | SliceParam Typ => Sprintf "[]%s" [AStr (resolveParam b Typ)]
  | PointerParam Typ => Sprintf "*%s" [AStr (resolveParam b Typ)]
  | MapParam Key Elem =>
      Sprintf "map[%s]%s" [AStr (resolveParam b Key); AStr (resolveParam b Elem)]
  | InterfaceParam Methods =>
      let w := "" in
      match Methods with
      | [] => w ++ "interface{}"
      | [m] =>
          let w := w ++ "interface{ " in
          let params := resolveParams (MParams m) in
          let returns := resolveParams (MReturns m) in
          let w := generateMethodSig w "" (MName m) params returns in
          w ++ " }"
      | _ =>
          let w := w ++ "interface {" in
          let w :=
            foldl (fun w m =>
                     let w := w ++ nl in
                     let params := resolveParams (MParams m) in
                     let returns := resolveParams (MReturns m) in
                     generateMethodSig w "" (MName m) params returns)
                  w Methods in
          w ++ nl ++ "}," ++ nl
      end
  | OtherParam _ => "<unsupported>"
  end.

Definition resolveParams (b : builder) (params : list Param) : list string :=
  map (resolveParam b) params.

(** ** Collecting package paths *)

(** The loops of [resolveMethodPackages], over the function [rp] that
    collects the packages of one parameter. *)
Definition methodPackagesWith (rp : Param → list string)
    (methods : list Method) : list string :=
  foldl (fun pkgs m =>
           let pkgs := foldl (fun pkgs p => (pkgs ++ rp p)%list) pkgs (MParams m) in
           foldl (fun pkgs p => (pkgs ++ rp p)%list) pkgs (MReturns m))
        [] methods.

Fixpoint resolvePackages (p : Param) : list string :=
  match p with
  | NamedParam Pkg _ => if bool_decide (Pkg = "") then [] else [Pkg]
  | ArrayParam Typ _ => resolvePackages Typ
  | SliceParam Typ => resolvePackages Typ
  | PointerParam Typ => resolvePackages Typ
  | MapParam Key Elem => (resolvePackages Key ++ resolvePackages Elem)%list
  | InterfaceParam Methods => methodPackagesWith resolvePackages Methods
  | _ => []
  end.

Definition resolveMethodPackages (methods : list Method) : list string :=
  methodPackagesWith resolvePackages methods.

(** ** The import map *)

(** The body of the inner loop of [buildImportMap] for one collected path. *)
Definition addImport (PkgPath : string) (importMap : gmap string string)
    (p : string) : gmap string string :=
  if bool_decide (p = PkgPath) then importMap
  else
    match importMap !! p with
    | Some _ => importMap
    | None => <[p := Sprintf "i%d" [AInt (Z.of_nat (size importMap))]]> importMap
    end.

Definition buildImportMap (pkg : Package) : gmap string string :=
  foldl (fun importMap i =>
           foldl (addImport (PkgPath pkg)) importMap
                 (resolveMethodPackages (IMethods i)))
        ∅ (Interfaces pkg).

(** ** Sorting strings (package [sort]) *)

(** [sort.Strings]: the argument in increasing order. Go compares strings
    byte by byte, which is the order [String.le]. *)
Definition Strings (a : list string) : list string := merge_sort String.le a.

(** [strings.Join]. *)
Definition Join (elems : list string) (sep : string) : string :=
  String.concat sep elems.

(** ** Writing *)

(** The line [writeImports] builds for one entry of the import map. *)
Definition importLine (entry : string * string) : string :=
  let '(imp, alias) := entry in
  Sprintf ("import %s " ++ dq ++ "%s" ++ dq) [AStr alias; AStr imp].

(** The slice [imports] of [writeImports] once it is sorted. Go ranges over
    a map in an unspecified order; [map_to_list] is one such order, and
    [Strings_Permutation] below shows that the order does not matter. *)
Definition sortedImports (importMap : gmap string string) : list string :=
  Strings (map importLine (map_to_list importMap)).

Definition writeImports (b : builder) : builder :=
  let imports := sortedImports (importMap b) in
  let b := Write b (Join imports nl) [] in
  if bool_decide (0 < length imports)%nat then WriteLine b "" [] else b.

Definition NewBuilder (pkg : Package) : builder :=
  let b := {| buf := ""; importMap := buildImportMap pkg |} in
  let b := WriteLine b "// Code generated by tracer v0.0.1. DO NOT EDIT." [] in
  let b := WriteLine b "package %s" [AStr (Name pkg)] in
  writeImports b.

Definition WriteStruct (b : builder) (strct : Struct) : builder :=
  let b := WriteLine b (nl ++ "type %s struct {") [AStr (SName strct)] in
  let b :=
    foldl (fun b attr =>
             WriteLine b "%s %s"
               [AStr (AName attr); AStr (resolveParam b (AType attr))])
          b (SAttrs strct) in
  WriteLine b "}" [].

(** [strct] is a pointer that may be [nil]; the callback receives the builder
    and leaves it with whatever it wrote. *)
Definition WriteMethod (b : builder) (strct : option Struct) (method : Method)
    (callback : builder → builder) : builder :=
  let b := Write b (nl ++ "func ") [] in
  let b := match strct with
           | Some strct => Write b "(t %s) " [AStr (SName strct)]
           | None => b
           end in
  let b := {| buf := generateMethodSig (buf b) "" (MName method)
                       (resolveParams b (MParams method))
                       (resolveParams b (MReturns method));
              importMap := importMap b |} in
  let b := WriteLine b " {" [] in
  let b := callback b in
  WriteLine b "}" [].

(** ** Finalizing *)

Section Finalize.

(** [format.Source] of package [go/format] and the destination [io.Writer]
    are outside the program: the first answers with the reformatted text or
    with an error, the second takes a text and answers with its new state,
    the number of bytes it took and an optional error. *)
Variable error : Type.
Variable Source : string → error + string.
Variable Writer : Type.
Variable Writer_Write : Writer → string → Writer * (Z * option error).

Definition WriteTo (b : builder) (w : Writer) : Writer * (Z * option error) :=
  match Source (buf b) with
  | inl err => (w, (0%Z, Some err))
  | inr formatted => Writer_Write w formatted
  end.

End Finalize.

Arguments WriteTo {error} Source {Writer} Writer_Write b w.

(** ** The driver's lookups ([main.go]) *)

(** The loop of [findInterface] over [pkg.Interfaces]; the zero value
    [types.Interface{}] is returned when it runs out. *)
Fixpoint findInterfaceIn (interfaces : list Interface) (name : string) : Interface * bool :=
  match interfaces with
  | [] => ({| IName := ""; IMethods := [] |}, false)
  | iface :: interfaces' =>
      if bool_decide (IName iface = name) then (iface, true)
      else findInterfaceIn interfaces' name
  end.

Definition findInterface (pkg : Package) (name : string) : Interface * bool :=
  findInterfaceIn (Interfaces pkg) name.

(** The loop of [findStruct] over [pkg.Structs]. *)
Fixpoint findStructIn (structs : list Struct) (name : string) : Struct * bool :=
  match structs with
  | [] => ({| SName := ""; SAttrs := [] |}, false)
  | strct :: structs' =>
      if bool_decide (SName strct = name) then (strct, true)
      else findStructIn structs' name
  end.

Definition findStruct (pkg : Package) (name : string) : Struct * bool :=
  findStructIn (Structs pkg) name.

(** * Definitions used by the statements *)

(** ** Signatures and interface literals, piece by piece *)

(** The positional parameter [p<i> <type>]. *)
Definition positional (i : nat) (param : string) : string :=
  "p" ++ pretty (Z.of_nat i) ++ " " ++ param.

(** What the writer has received once [generateMethodSig] has closed the
    parameter list. *)
Definition sigThroughParams (w implementor methodName : string)
    (params : list string) : string :=
  (if bool_decide (implementor ≠ "") then w ++ "(t " ++ implementor ++ ") " else w)
  ++ methodName ++ "(" ++ Join (imap positional params) ", " ++ ")".

(** The return clause in the specification's words. *)
Definition returnClause (returns : list string) : string :=
  match returns with
  | [] => ""
  | [r] => " " ++ r
  | _ => " (" ++ Join returns ", " ++ ")"
  end.

(** One resolved method signature, as [resolveParam] writes it for a method
    of an anonymous interface. *)
Definition methodSig (b : builder) (m : Method) : string :=
  generateMethodSig "" "" (MName m)
    (resolveParams b (MParams m)) (resolveParams b (MReturns m)).

(** A line break and a signature for every method. *)
Fixpoint methodLines (b : builder) (methods : list Method) : string :=
  match methods with
  | [] => ""
  | m :: methods' => nl ++ methodSig b m ++ methodLines b methods'
  end.

(** ** Induction hypotheses for methods *)

(** [P] holds of every parameter and every return of [m]. *)
Definition MethodAll (P : Param → Prop) (m : Method) : Prop :=
  Forall P (MParams m) ∧ Forall P (MReturns m).

(** ** Recognized variants *)

(** The seven variants the type switches name. *)
Definition recognized (p : Param) : bool :=
  match p with
  | OtherParam _ => false
  | _ => true
  end.

(** ** The import resolver in the specification's words *)

(** The packages one method refers to, parameters before returns, over the
    function [rp] for one parameter. *)
Definition methodPackagesOf (rp : Param → list string) (m : Method) : list string :=
  (flat_map rp (MParams m) ++ flat_map rp (MReturns m))%list.

(** The specification's step 1: the package of every [Named] parameter that
    has one, in encounter order, descending through element types and
    through the methods of anonymous interfaces. *)
Fixpoint namedPackages (p : Param) : list string :=
  match p with
  | BasicParam _ => []
  | NamedParam Pkg _ => if bool_decide (Pkg = "") then [] else [Pkg]
  | ArrayParam Typ _ => namedPackages Typ
  | SliceParam Typ => namedPackages Typ
  | PointerParam Typ => namedPackages Typ
  | MapParam Key Elem => (namedPackages Key ++ namedPackages Elem)%list
  | InterfaceParam Methods => flat_map (methodPackagesOf namedPackages) Methods
  | OtherParam _ => []
  end.

(** Interfaces in order, methods in order. *)
Definition traversal (pkg : Package) : list string :=
  flat_map (fun i => flat_map (methodPackagesOf namedPackages) (IMethods i))
           (Interfaces pkg).

(** Deduplication that keeps the first occurrence. *)
Fixpoint firstSeen (l : list string) : list string :=
  match l with
  | [] => []
  | x :: l' => x :: filter (fun y => y ≠ x) (firstSeen l')
  end.

(** The specification's steps 2 and 3: the foreign packages in order of
    first discovery. *)
Definition discovered (pkg : Package) : list string :=
  firstSeen (filter (fun p => p ≠ PkgPath pkg) (traversal pkg)).

(** The alias of the [k]-th discovered package. *)
Definition alias (k : nat) : string := "i" ++ pretty (Z.of_nat k).

Definition aliasEntries (l : list string) : list (string * string) :=
  imap (fun k p => (p, alias k)) l.

(** The map that gives the [k]-th path of [l] the alias [i<k>]. *)
Definition aliasMap (l : list string) : gmap string string :=
  list_to_map (aliasEntries l).

(** The paths that hold an alias once [p] has been looked at, when those of
    [acc] held one before. *)
Definition discoverOne (PkgPath : string) (acc : list string) (p : string) : list string :=
  if decide (p = PkgPath ∨ p ∈ acc) then acc else (acc ++ [p])%list.

(** ** Struct lines and import lines *)

(** The line [WriteStruct] writes for one attribute. *)
Definition attrLine (b : builder) (attr : Attr) : string :=
  AName attr ++ " " ++ resolveParam b (AType attr) ++ nl.

Fixpoint attrLines (b : builder) (attrs : list Attr) : string :=
  match attrs with
  | [] => ""
  | attr :: attrs' => attrLine b attr ++ attrLines b attrs'
  end.


(** A format without [%] and without operands is written as it is. *)
Fixpoint percentFree (s : string) : bool :=
  match s with
  | EmptyString => true
  | String c s' => negb (bool_decide (c = "%"%char)) && percentFree s'
  end.

(** ** A destination writer *)

(** A destination that takes every byte it is given, as a [bytes.Buffer]
    does. *)
Definition bufferWrite (w : string) (p : string) : string * (Z * option string) :=
  (w ++ p, (Z.of_nat (String.length p), None)).

(** ** Builders reached by writing *)

(** [b'] has the import map of [b] and a buffer that starts with the buffer
    of [b]. *)
Definition extends (b b' : builder) : Prop :=
  importMap b' = importMap b ∧ ∃ written, buf b' = buf b ++ written.

(** The receiver [WriteMethod] writes for a struct pointer. *)
Definition receiver (strct : option Struct) : string :=
  match strct with
  | Some strct => "(t " ++ SName strct ++ ") "
  | None => ""
  end.

(** The first two lines of every generated file. *)
Definition fileHeader (pkg : Package) : string :=
  "// Code generated by tracer v0.0.1. DO NOT EDIT." ++ nl
  ++ "package " ++ Name pkg ++ nl.

(** ** Sample inputs *)

(** The anonymous interface of [interfaceTypeWithEmbed] in the test data. *)
Definition twoMethods : Param :=
  InterfaceParam
    [mkMethod "withoutContext" [] [];
     mkMethod "Foo" [BasicParam "string"] [BasicParam "int"]].

(** A package of the test data's shape: two foreign packages, the second one
    met again later, and a type of the package itself. *)
Definition samplePackage : Package :=
  mkPackage "testdata" "github.com/hfaulds/tracer/testdata"
    [mkInterface "methodsWithContext"
       [mkMethod "withContext" [NamedParam "context" "Context"] [];
        mkMethod "namedAndBasicTypes"
          [NamedParam "context" "Context"; BasicParam "int";
           NamedParam "bytes" "Buffer"]
          [NamedParam "github.com/hfaulds/tracer/testdata" "Local"];
        mkMethod "mapType"
          [MapParam (BasicParam "int") (PointerParam (NamedParam "bytes" "Buffer"))]
          [NamedParam "io" "Reader"]]]
    [].

(** A package that is itself called [i0]. *)
Definition packageNamedI0 : Package :=
  mkPackage "i0" "example.com/i0"
    [mkInterface "Client"
       [mkMethod "Get" [NamedParam "context" "Context"; BasicParam "string"]
                       [BasicParam "int"; BasicParam "error"]]]
    [].

(** A struct with a field of a package the interfaces mention and a field of
    a package they do not mention. *)
Definition sampleStruct : Struct :=
  mkStruct "client"
    [mkAttr "buf" (NamedParam "bytes" "Buffer");
     mkAttr "timer" (NamedParam "time" "Timer")].

(** A package whose interface mentions package [z] before package [a]. *)
Definition packageZA : Package :=
  mkPackage "main" "example.com/main"
    [mkInterface "Client"
       [mkMethod "Get" [NamedParam "z" "T"; NamedParam "a" "U"] []]]
    [].

(** * Properties *)

(** ** Strings and formats *)

Lemma str_app_cons (c : ascii) (s1 s2 : string) :
  String c s1 ++ s2 = String c (s1 ++ s2).
Proof. reflexivity. Qed.

Lemma str_app_nil_r (s : string) : s ++ "" = s.
Proof.
  induction s as [|c s IH]; [reflexivity|].
  now rewrite str_app_cons, IH.
Qed.

Lemma str_app_assoc (s1 s2 s3 : string) : (s1 ++ s2) ++ s3 = s1 ++ s2 ++ s3.
Proof.
  induction s1 as [|c s1 IH]; [reflexivity|].
  now rewrite !str_app_cons, IH.
Qed.

Ltac format_eq := cbv -[String.append pretty]; rewrite ?str_app_nil_r; reflexivity.

Lemma Sprintf_alias (n : Z) : Sprintf "i%d" [AInt n] = "i" ++ pretty n.
Proof. format_eq. Qed.

Lemma Sprintf_qualified (alias Typ : string) :
  Sprintf "%s.%s" [AStr alias; AStr Typ] = alias ++ "." ++ Typ.
Proof. format_eq. Qed.

Lemma Sprintf_array (n : Z) (s : string) :
  Sprintf "[%d]%s" [AInt n; AStr s] = "[" ++ pretty n ++ "]" ++ s.
Proof. format_eq. Qed.

Lemma Sprintf_slice (s : string) : Sprintf "[]%s" [AStr s] = "[]" ++ s.
Proof. format_eq. Qed.

Lemma Sprintf_pointer (s : string) : Sprintf "*%s" [AStr s] = "*" ++ s.
Proof. format_eq. Qed.

Lemma Sprintf_map (k e : string) :
  Sprintf "map[%s]%s" [AStr k; AStr e] = "map[" ++ k ++ "]" ++ e.
Proof. format_eq. Qed.

Lemma Sprintf_name (methodName : string) :
  Sprintf "%s(" [AStr methodName] = methodName ++ "(".
Proof. format_eq. Qed.

Lemma Sprintf_param (i : Z) (param : string) :
  Sprintf "p%d %s" [AInt i; AStr param] = "p" ++ pretty i ++ " " ++ param.
Proof. format_eq. Qed.

Lemma Sprintf_attr (name typ : string) :
  Sprintf ("%s %s" ++ nl) [AStr name; AStr typ] = name ++ " " ++ typ ++ nl.
Proof. format_eq. Qed.

Lemma Sprintf_type (name : string) :
  Sprintf ((nl ++ "type %s struct {") ++ nl) [AStr name] =
  nl ++ "type " ++ name ++ " struct {" ++ nl.
Proof. format_eq. Qed.

Lemma Sprintf_import (alias imp : string) :
  Sprintf ("import %s " ++ dq ++ "%s" ++ dq) [AStr alias; AStr imp] =
  "import " ++ alias ++ " " ++ dq ++ imp ++ dq.
Proof. format_eq. Qed.

(** ** Induction over type parameters

    [Param] recurses through the method lists of [InterfaceParam]; the
    principle Rocq derives has no hypothesis for them. *)

Section ParamInd.

Variable P : Param → Prop.

Hypothesis HBasic : ∀ Typ, P (BasicParam Typ).
Hypothesis HNamed : ∀ Pkg Typ, P (NamedParam Pkg Typ).
Hypothesis HArray : ∀ Typ Length, P Typ → P (ArrayParam Typ Length).
Hypothesis HSlice : ∀ Typ, P Typ → P (SliceParam Typ).
Hypothesis HPointer : ∀ Typ, P Typ → P (PointerParam Typ).
Hypothesis HMap : ∀ Key Elem, P Key → P Elem → P (MapParam Key Elem).
Hypothesis HInterface :
  ∀ Methods, Forall (MethodAll P) Methods → P (InterfaceParam Methods).
Hypothesis HOther : ∀ dyn, P (OtherParam dyn).

Fixpoint Param_nested_ind (p : Param) : P p :=
  let all :=
    fix all (l : list Param) : Forall P l :=
      match l with
      | [] => @List.Forall_nil _ P
      | x :: l' => @List.Forall_cons _ P x l' (Param_nested_ind x) (all l')
      end in
  match p with
  | BasicParam Typ => HBasic Typ
  | NamedParam Pkg Typ => HNamed Pkg Typ
  | ArrayParam Typ Length => HArray Typ Length (Param_nested_ind Typ)
  | SliceParam Typ => HSlice Typ (Param_nested_ind Typ)
  | PointerParam Typ => HPointer Typ (Param_nested_ind Typ)
  | MapParam Key Elem =>
      HMap Key Elem (Param_nested_ind Key) (Param_nested_ind Elem)
  | InterfaceParam Methods =>
      HInterface Methods
        ((fix methods (ms : list Method) : Forall (MethodAll P) ms :=
            match ms with
            | [] => @List.Forall_nil _ (MethodAll P)
            | m :: ms' =>
                @List.Forall_cons _ (MethodAll P) m ms'
                  (match m return MethodAll P m with
                   | mkMethod _ ps rs => conj (all ps) (all rs)
                   end)
                  (methods ms')
            end) Methods)
  | OtherParam dyn => HOther dyn
  end.

End ParamInd.

(** ** Resolution reads the import map only *)

Lemma resolveParam_interface (b : builder) (Methods : list Method) :
  resolveParam b (InterfaceParam Methods) =
  match Methods with
  | [] => "interface{}"
  | [m] =>
      generateMethodSig "interface{ " "" (MName m)
        (resolveParams b (MParams m)) (resolveParams b (MReturns m)) ++ " }"
  | _ =>
      foldl (fun w m =>
               generateMethodSig (w ++ nl) "" (MName m)
                 (resolveParams b (MParams m)) (resolveParams b (MReturns m)))
            "interface {" Methods ++ nl ++ "}," ++ nl
  end.
Proof. destruct Methods as [|m [|m' ms]]; reflexivity. Qed.

Lemma resolveParam_ext (b1 b2 : builder) (p : Param) :
  importMap b1 = importMap b2 → resolveParam b1 p = resolveParam b2 p.
Proof.
  intros Hmap. induction p as
    [Typ|Pkg Typ|Typ Length IH|Typ IH|Typ IH|Key Elem IHk IHe|Methods IH|dyn]
    using Param_nested_ind; cbn [resolveParam].
  - reflexivity.
  - now rewrite Hmap.
  - now rewrite IH.
  - now rewrite IH.
  - now rewrite IH.
  - now rewrite IHk, IHe.
  - assert (Hsig : ∀ m, m ∈ Methods →
              resolveParams b1 (MParams m) = resolveParams b2 (MParams m) ∧
              resolveParams b1 (MReturns m) = resolveParams b2 (MReturns m)).
    { intros m Hm. rewrite Forall_forall in IH.
      destruct (IH m Hm) as [Hps Hrs]. unfold resolveParams.
      split; apply map_ext_Forall; assumption. }
    change (resolveParam b1 (InterfaceParam Methods) =
            resolveParam b2 (InterfaceParam Methods)).
    rewrite !resolveParam_interface.
    assert (Hfold : ∀ w,
      foldl (fun w m => generateMethodSig (w ++ nl) "" (MName m)
               (resolveParams b1 (MParams m)) (resolveParams b1 (MReturns m)))
            w Methods =
      foldl (fun w m => generateMethodSig (w ++ nl) "" (MName m)
               (resolveParams b2 (MParams m)) (resolveParams b2 (MReturns m)))
            w Methods).
    { clear IH. induction Methods as [|m ms IHms]; intros w; [reflexivity|].
      cbn [foldl]. destruct (Hsig m) as [-> ->]; [left|].
      apply IHms. intros m' Hm'. apply Hsig. now right. }
    destruct Methods as [|m [|m' ms]]; [reflexivity| |now rewrite Hfold].
    destruct (Hsig m) as [-> ->]; [left|reflexivity].
  - reflexivity.
Qed.

(** ** Method signatures *)

Lemma Join_cons_cons (x y : string) (l : list string) (sep : string) :
  Join (x :: y :: l) sep = x ++ sep ++ Join (y :: l) sep.
Proof. reflexivity. Qed.

Lemma writeSigParams_Join (params : list string) (n i : nat) (w : string) :
  n = (i + length params)%nat →
  writeSigParams n i params w =
  w ++ Join (imap (fun k => positional (i + k)) params) ", ".
Proof.
  revert i w. induction params as [|param params IH]; intros i w Hn.
  - cbn. now rewrite str_app_nil_r.
  - cbn [writeSigParams]. rewrite Sprintf_param.
    destruct params as [|param' params].
    + rewrite bool_decide_eq_false_2 by (cbn in Hn; lia).
      cbn. unfold positional. now rewrite Nat.add_0_r.
    + rewrite bool_decide_eq_true_2 by (cbn in Hn; lia).
      rewrite (IH (S i)) by (cbn in Hn |- *; lia).
      rewrite (imap_cons _ param).
      assert (Hshift :
        imap ((fun k => positional (i + k)) ∘ S) (param' :: params) =
        imap (fun k => positional (S i + k)) (param' :: params)).
      { apply imap_ext. intros k x _. cbn. f_equal. lia. }
      rewrite Hshift. clear Hshift IH.
      set (rest := imap _ (param' :: params)).
      assert (Hrest : ∃ y l, rest = y :: l) by (now eexists _, _).
      destruct Hrest as (y & l & ->).
      rewrite Join_cons_cons. unfold positional.
      now rewrite Nat.add_0_r, !str_app_assoc.
Qed.

Lemma writeSigReturns_tail (returns : list string) (i : nat) (w r : string) :
  writeSigReturns (S i) returns (w ++ r) = w ++ Join (r :: returns) ", ".
Proof.
  revert i w r. induction returns as [|r' returns IH]; intros i w r.
  - reflexivity.
  - cbn [writeSigReturns]. rewrite bool_decide_eq_true_2 by lia.
    rewrite IH, Join_cons_cons. now rewrite !str_app_assoc.
Qed.

Lemma writeSigReturns_Join (returns : list string) (w : string) :
  writeSigReturns 0 returns w = w ++ Join returns ", ".
Proof.
  destruct returns as [|r returns].
  - cbn. now rewrite str_app_nil_r.
  - cbn [writeSigReturns]. rewrite bool_decide_eq_false_2 by lia.
    apply writeSigReturns_tail.
Qed.

Lemma generateMethodSig_eq (w implementor methodName : string)
    (params returns : list string) :
  generateMethodSig w implementor methodName params returns =
  sigThroughParams w implementor methodName params ++ returnClause returns.
Proof.
  unfold generateMethodSig, sigThroughParams.
  rewrite writeSigParams_Join by reflexivity.
  rewrite Sprintf_name.
  change (Sprintf "(t %s) " [AStr implementor]) with ("(t " ++ implementor ++ ") ").
  generalize (if bool_decide (implementor ≠ "")
              then w ++ "(t " ++ implementor ++ ") " else w).
  intros w'. change (fun k => positional (0 + k)) with positional.
  destruct returns as [|r [|r' returns]].
  - rewrite !bool_decide_eq_false_2 by (cbn; lia).
    cbn [writeSigReturns returnClause].
    now rewrite !str_app_assoc, !str_app_nil_r.
  - rewrite (bool_decide_eq_true_2 (0 < _)%nat) by (cbn; lia).
    rewrite !bool_decide_eq_false_2 by (cbn; lia).
    rewrite writeSigReturns_Join. unfold returnClause.
    now rewrite !str_app_assoc.
  - rewrite !bool_decide_eq_true_2 by (cbn; lia).
    rewrite writeSigReturns_Join. unfold returnClause.
    now rewrite !str_app_assoc.
Qed.

Lemma generateMethodSig_append (w implementor methodName : string)
    (params returns : list string) :
  implementor = "" →
  generateMethodSig w implementor methodName params returns =
  w ++ generateMethodSig "" implementor methodName params returns.
Proof.
  intros ->. rewrite !generateMethodSig_eq. unfold sigThroughParams.
  rewrite !bool_decide_eq_false_2 by (intros H; now apply H).
  now rewrite !str_app_assoc.
Qed.

(** C6: in every synthesized signature the return clause follows the closing
    parenthesis of the parameter list and depends on the number of returns
    only: none for an empty return list, a space and the bare type for one
    return, and for two or more a space and the comma-joined types inside one
    pair of parentheses. *)
Theorem generateMethodSig_return_clause
    (w implementor methodName : string) (params : list string) :
  let closed := sigThroughParams w implementor methodName params in
  generateMethodSig w implementor methodName params [] = closed ∧
  (∀ r, generateMethodSig w implementor methodName params [r] =
        closed ++ " " ++ r) ∧
  (∀ r1 r2 returns,
     generateMethodSig w implementor methodName params (r1 :: r2 :: returns) =
     closed ++ " (" ++ Join (r1 :: r2 :: returns) ", " ++ ")").
Proof.
  cbn zeta. repeat split; intros; rewrite generateMethodSig_eq.
  - apply str_app_nil_r.
  - reflexivity.
  - reflexivity.
Qed.

Example generateMethodSig_returns_0 :
  generateMethodSig "" "" "Get" ["string"] [] = "Get(p0 string)".
Proof. vm_compute. reflexivity. Qed.

Example generateMethodSig_returns_1 :
  generateMethodSig "" "" "Get" ["string"] ["int"] = "Get(p0 string) int".
Proof. vm_compute. reflexivity. Qed.

Example generateMethodSig_returns_2 :
  generateMethodSig "" "" "Get" ["i0.Context"; "string"] ["int"; "error"] =
  "Get(p0 i0.Context, p1 string) (int, error)".
Proof. vm_compute. reflexivity. Qed.

(** ** Interface literals *)

Lemma interface_loop (b : builder) (methods : list Method) (w : string) :
  foldl (fun w m =>
           generateMethodSig (w ++ nl) "" (MName m)
             (resolveParams b (MParams m)) (resolveParams b (MReturns m)))
        w methods = w ++ methodLines b methods.
Proof.
  revert w. induction methods as [|m methods IH]; intros w.
  - cbn. now rewrite str_app_nil_r.
  - cbn [foldl methodLines]. rewrite IH.
    rewrite generateMethodSig_append by reflexivity.
    unfold methodSig. now rewrite !str_app_assoc.
Qed.

(** The three shapes of a resolved anonymous interface. *)
Lemma resolveParam_interface_shapes (b : builder) :
  resolveParam b (InterfaceParam []) = "interface{}" ∧
  (∀ m, resolveParam b (InterfaceParam [m]) =
        "interface{ " ++ methodSig b m ++ " }") ∧
  (∀ m1 m2 methods,
     resolveParam b (InterfaceParam (m1 :: m2 :: methods)) =
     "interface {" ++ methodLines b (m1 :: m2 :: methods) ++ nl ++ "}," ++ nl).
Proof.
  repeat split; intros; rewrite resolveParam_interface.
  - rewrite generateMethodSig_append by reflexivity. unfold methodSig.
    now rewrite !str_app_assoc.
  - rewrite interface_loop. now rewrite !str_app_assoc.
Qed.

(** C3: an interface of two methods resolves to the opening line, one
    signature per line and the closing brace, followed by a comma and a line
    break that belong to no interface literal. *)
Theorem resolveParam_interface_two_methods (b : builder) :
  resolveParam b twoMethods =
  "interface {" ++ nl ++ "withoutContext()" ++ nl ++ "Foo(p0 string) int"
  ++ nl ++ "}" ++ "," ++ nl.
Proof. vm_compute. reflexivity. Qed.

Example resolveParam_interface_one_method (b : builder) :
  resolveParam b
    (InterfaceParam [mkMethod "Foo" [BasicParam "string"] [BasicParam "int"]]) =
  "interface{ Foo(p0 string) int }".
Proof. vm_compute. reflexivity. Qed.

(** ** Named, nested and unsupported types *)

(** C7: [Slice{Pointer{Named{Package: p, Name: T}}}] resolves to [[]*i0.T]
    under any import map that sends [p] to [i0]. *)
Theorem resolveParam_slice_pointer_named (b : builder) :
  importMap b !! "p" = Some "i0" →
  resolveParam b (SliceParam (PointerParam (NamedParam "p" "T"))) = "[]*i0.T".
Proof.
  intros Hp. cbn [resolveParam]. rewrite Hp.
  rewrite bool_decide_eq_true_2 by discriminate.
  vm_compute. reflexivity.
Qed.

Lemma resolveParam_slice_pointer_named_witness :
  resolveParam {| buf := ""; importMap := {["p" := "i0"]} |}
    (SliceParam (PointerParam (NamedParam "p" "T"))) = "[]*i0.T".
Proof. apply resolveParam_slice_pointer_named. reflexivity. Defined.

(** C8: resolution is a total function, and on every parameter outside the
    seven recognized variants it returns the sentinel [<unsupported>]. *)
Theorem resolveParam_unsupported (b : builder) (p : Param) :
  recognized p = false → resolveParam b p = "<unsupported>".
Proof. destruct p; intros Hp; try discriminate Hp. reflexivity. Qed.

Lemma resolveParam_unsupported_witness :
  resolveParam {| buf := ""; importMap := ∅ |} (OtherParam "chan int") =
  "<unsupported>".
Proof. apply resolveParam_unsupported. reflexivity. Defined.

(** ** The traversal of the import resolver *)

Lemma foldl_append_flat {A} (f : A → list string) (l : list A) (acc : list string) :
  foldl (fun acc x => (acc ++ f x)%list) acc l = (acc ++ flat_map f l)%list.
Proof.
  revert acc. induction l as [|x l IH]; intros acc; cbn.
  - now rewrite app_nil_r.
  - now rewrite IH, app_assoc.
Qed.

Lemma methodPackages_loop (rp : Param → list string) (methods : list Method)
    (acc : list string) :
  foldl (fun pkgs m =>
           let pkgs := foldl (fun pkgs p => (pkgs ++ rp p)%list) pkgs (MParams m) in
           foldl (fun pkgs p => (pkgs ++ rp p)%list) pkgs (MReturns m))
        acc methods = (acc ++ flat_map (methodPackagesOf rp) methods)%list.
Proof.
  revert acc. induction methods as [|m methods IH]; intros acc; cbn [foldl flat_map].
  - now rewrite app_nil_r.
  - rewrite IH, !foldl_append_flat. unfold methodPackagesOf.
    now rewrite !app_assoc.
Qed.

Lemma methodPackagesWith_flat (rp : Param → list string) (methods : list Method) :
  methodPackagesWith rp methods = flat_map (methodPackagesOf rp) methods.
Proof. unfold methodPackagesWith. now rewrite methodPackages_loop. Qed.

Lemma flat_map_Forall_ext {A} (f g : A → list string) (l : list A) :
  Forall (fun x => f x = g x) l → flat_map f l = flat_map g l.
Proof. induction 1 as [|x l Hx _ IH]; cbn; [reflexivity|]. now rewrite Hx, IH. Qed.

(** The collection of the code is the traversal of the specification. *)
Lemma resolvePackages_namedPackages (p : Param) :
  resolvePackages p = namedPackages p.
Proof.
  induction p as
    [Typ|Pkg Typ|Typ Length IH|Typ IH|Typ IH|Key Elem IHk IHe|Methods IH|dyn]
    using Param_nested_ind; cbn [resolvePackages namedPackages];
    try reflexivity; try assumption.
  - now rewrite IHk, IHe.
  - rewrite methodPackagesWith_flat. apply flat_map_Forall_ext.
    eapply Forall_impl; [exact IH|]. intros m [Hps Hrs].
    unfold methodPackagesOf. f_equal; now apply flat_map_Forall_ext.
Qed.

Lemma resolveMethodPackages_flat (methods : list Method) :
  resolveMethodPackages methods =
  flat_map (methodPackagesOf namedPackages) methods.
Proof.
  unfold resolveMethodPackages. rewrite methodPackagesWith_flat.
  apply flat_map_Forall_ext, Forall_forall. intros m _.
  unfold methodPackagesOf.
  f_equal; apply flat_map_Forall_ext, Forall_forall; intros p _;
    apply resolvePackages_namedPackages.
Qed.

(** No empty path is ever collected. *)
Lemma namedPackages_nonempty (p : Param) : Forall (fun x => x ≠ "") (namedPackages p).
Proof.
  induction p as
    [Typ|Pkg Typ|Typ Length IH|Typ IH|Typ IH|Key Elem IHk IHe|Methods IH|dyn]
    using Param_nested_ind; cbn [namedPackages];
    try assumption; try (now constructor).
  - case_bool_decide; repeat constructor. assumption.
  - now apply Forall_app.
  - induction IH as [|m ms [Hps Hrs] _ IHms]; cbn [flat_map]; [constructor|].
    apply Forall_app. split; [|exact IHms].
    unfold methodPackagesOf. apply Forall_app.
    split; [clear Hrs; induction Hps|clear Hps; induction Hrs];
      cbn [flat_map]; try constructor; now apply Forall_app.
Qed.

Lemma traversal_nonempty (pkg : Package) : "" ∉ traversal pkg.
Proof.
  unfold traversal. intros Hin. apply list_elem_of_In in Hin.
  apply in_flat_map in Hin as (i & _ & Hin).
  apply in_flat_map in Hin as (m & _ & Hin).
  unfold methodPackagesOf in Hin. apply in_app_or in Hin.
  assert (Hp : ∀ ps, ¬ In "" (flat_map namedPackages ps)).
  { intros ps Hps. apply in_flat_map in Hps as (p & _ & Hp).
    pose proof (namedPackages_nonempty p) as Hall.
    rewrite Forall_forall in Hall. apply list_elem_of_In in Hp.
    now apply (Hall "" Hp). }
  destruct Hin as [Hin|Hin]; now apply Hp in Hin.
Qed.

(** ** Building the import map *)

Lemma alias_inj (k1 k2 : nat) : alias k1 = alias k2 → k1 = k2.
Proof.
  unfold alias. intros H. apply (inj (String.app "i")) in H.
  apply (inj pretty) in H. lia.
Qed.

Lemma Sprintf_alias_nat (k : nat) : Sprintf "i%d" [AInt (Z.of_nat k)] = alias k.
Proof. apply Sprintf_alias. Qed.

Lemma aliasEntries_fst (l : list string) : (aliasEntries l).*1 = l.
Proof.
  unfold aliasEntries. rewrite fmap_imap. apply list_eq. intros i.
  rewrite list_lookup_imap. now destruct (l !! i).
Qed.

Lemma aliasEntries_snoc (l : list string) (p : string) :
  aliasEntries (l ++ [p]) = (aliasEntries l ++ [(p, alias (length l))])%list.
Proof. unfold aliasEntries. rewrite imap_app. cbn. now rewrite Nat.add_0_r. Qed.

Lemma aliasMap_size (l : list string) : NoDup l → size (aliasMap l) = length l.
Proof.
  intros Hnd. unfold aliasMap. rewrite map_size_list_to_map.
  - apply length_imap.
  - now rewrite aliasEntries_fst.
Qed.

Lemma aliasMap_lookup (l : list string) (k : nat) (p : string) :
  NoDup l → l !! k = Some p → aliasMap l !! p = Some (alias k).
Proof.
  intros Hnd Hk. unfold aliasMap.
  apply elem_of_list_to_map; [now rewrite aliasEntries_fst|].
  apply list_elem_of_lookup. exists k. unfold aliasEntries.
  rewrite list_lookup_imap, Hk. reflexivity.
Qed.

Lemma aliasMap_lookup_None (l : list string) (p : string) :
  p ∉ l → aliasMap l !! p = None.
Proof.
  intros Hp. apply not_elem_of_list_to_map_1. now rewrite aliasEntries_fst.
Qed.

Lemma aliasMap_lookup_Some (l : list string) (p a : string) :
  NoDup l → aliasMap l !! p = Some a →
  ∃ k, l !! k = Some p ∧ a = alias k.
Proof.
  intros Hnd Hp. unfold aliasMap in Hp.
  apply elem_of_list_to_map in Hp; [|now rewrite aliasEntries_fst].
  apply list_elem_of_lookup in Hp as [k Hk]. unfold aliasEntries in Hk.
  rewrite list_lookup_imap in Hk. exists k.
  destruct (l !! k) as [q|]; cbn in Hk; [|discriminate]. now inversion Hk.
Qed.

Lemma discoverOne_NoDup (path : string) (acc : list string) (p : string) :
  NoDup acc → NoDup (discoverOne path acc p).
Proof.
  intros Hnd. unfold discoverOne. case_decide as Hp; [assumption|].
  apply NoDup_app. split; [assumption|]. split; [|apply NoDup_singleton].
  intros x Hx Hxp. apply list_elem_of_singleton in Hxp. subst x. tauto.
Qed.

(** One turn of the inner loop of [buildImportMap]. *)
Lemma addImport_aliasMap (path : string) (acc : list string) (p : string) :
  NoDup acc →
  addImport path (aliasMap acc) p = aliasMap (discoverOne path acc p).
Proof.
  intros Hnd. unfold addImport, discoverOne. case_bool_decide as Hp.
  - now rewrite decide_True by auto.
  - destruct (decide (p ∈ acc)) as [Hin|Hnin].
    + rewrite decide_True by auto.
      destruct (aliasMap acc !! p) eqn:E; [reflexivity|].
      apply not_elem_of_list_to_map in E. now rewrite aliasEntries_fst in E.
    + rewrite decide_False by tauto.
      rewrite aliasMap_lookup_None by assumption.
      rewrite Sprintf_alias_nat, aliasMap_size by assumption.
      unfold aliasMap. rewrite aliasEntries_snoc.
      now rewrite list_to_map_snoc by (now rewrite aliasEntries_fst).
Qed.

Lemma foldl_addImport (path : string) (ps acc : list string) :
  NoDup acc →
  foldl (addImport path) (aliasMap acc) ps =
    aliasMap (foldl (discoverOne path) acc ps) ∧
  NoDup (foldl (discoverOne path) acc ps).
Proof.
  revert acc. induction ps as [|p ps IH]; intros acc Hnd; cbn [foldl].
  - now split.
  - rewrite addImport_aliasMap by assumption.
    apply IH. now apply discoverOne_NoDup.
Qed.

(** The accumulated paths are those seen first, in that order. *)
Lemma discover_firstSeen (path : string) (ps acc : list string) :
  foldl (discoverOne path) acc ps =
  (acc ++ filter (fun x => x ∉ acc)
            (firstSeen (filter (fun p => p ≠ path) ps)))%list.
Proof.
  revert acc. induction ps as [|p ps IH]; intros acc; cbn [foldl].
  - cbn. now rewrite app_nil_r.
  - unfold discoverOne at 2. destruct (decide (p = path)) as [->|Hne].
    + rewrite decide_True by auto. rewrite IH.
      now rewrite filter_cons_False by (intros H; now apply H).
    + rewrite (filter_cons_True _ p) by assumption. cbn [firstSeen].
      destruct (decide (p ∈ acc)) as [Hin|Hnin].
      * rewrite decide_True by auto. rewrite IH.
        rewrite filter_cons_False by (intros H; now apply H).
        rewrite list_filter_filter_l; [reflexivity|].
        intros x Hx ->. now apply Hx.
      * rewrite decide_False by tauto. rewrite IH.
        rewrite filter_cons_True by assumption.
        rewrite list_filter_filter, <- app_assoc. cbn [app]. do 2 f_equal.
        apply list_filter_iff. intros x.
        rewrite elem_of_app, list_elem_of_singleton. tauto.
Qed.

Lemma filter_not_in_nil (l : list string) :
  filter (fun x => x ∉ @nil string) l = l.
Proof.
  induction l as [|x l IH]; [reflexivity|].
  rewrite filter_cons_True by apply not_elem_of_nil. now rewrite IH.
Qed.

Lemma foldl_flat_map {A B C} (f : A → C → A) (g : B → list C) (l : list B) (a : A) :
  foldl (fun a x => foldl f a (g x)) a l = foldl f a (flat_map g l).
Proof.
  revert a. induction l as [|x l IH]; intros a; cbn [foldl flat_map].
  - reflexivity.
  - now rewrite foldl_app, IH.
Qed.

(** The import map holds the discovered packages under [i0], [i1], ... *)
Lemma buildImportMap_discovered (pkg : Package) :
  buildImportMap pkg = aliasMap (discovered pkg) ∧ NoDup (discovered pkg).
Proof.
  unfold buildImportMap, discovered, traversal.
  rewrite foldl_flat_map.
  assert (Hflat :
    flat_map (fun i => resolveMethodPackages (IMethods i)) (Interfaces pkg) =
    flat_map (fun i => flat_map (methodPackagesOf namedPackages) (IMethods i))
             (Interfaces pkg)).
  { apply flat_map_Forall_ext, Forall_forall. intros i _.
    apply resolveMethodPackages_flat. }
  rewrite Hflat.
  destruct (foldl_addImport (PkgPath pkg)
              (flat_map (fun i => flat_map (methodPackagesOf namedPackages) (IMethods i))
                        (Interfaces pkg)) [] (NoDup_nil_2 (A:=string))) as [Heq Hnd].
  rewrite discover_firstSeen in Heq, Hnd. cbn [app] in Heq, Hnd.
  rewrite filter_not_in_nil in Heq, Hnd.
  split; assumption.
Qed.

Lemma firstSeen_elem_of (l : list string) (x : string) : x ∈ firstSeen l → x ∈ l.
Proof.
  induction l as [|y l IH]; cbn [firstSeen]; [trivial|].
  rewrite !elem_of_cons, list_elem_of_filter. tauto.
Qed.

Lemma discovered_not_own_path (pkg : Package) : PkgPath pkg ∉ discovered pkg.
Proof.
  unfold discovered. intros Hin. apply firstSeen_elem_of in Hin.
  apply list_elem_of_filter in Hin as [Hne _]. now apply Hne.
Qed.

Lemma discovered_nonempty (pkg : Package) : "" ∉ discovered pkg.
Proof.
  unfold discovered. intros Hin. apply firstSeen_elem_of in Hin.
  apply list_elem_of_filter in Hin as [_ Hin]. now apply traversal_nonempty in Hin.
Qed.

Lemma buildImportMap_own_path (pkg : Package) :
  buildImportMap pkg !! PkgPath pkg = None.
Proof.
  destruct (buildImportMap_discovered pkg) as [-> _].
  apply aliasMap_lookup_None, discovered_not_own_path.
Qed.

Lemma buildImportMap_empty_path (pkg : Package) : buildImportMap pkg !! "" = None.
Proof.
  destruct (buildImportMap_discovered pkg) as [-> _].
  apply aliasMap_lookup_None, discovered_nonempty.
Qed.

Lemma NewBuilder_importMap (pkg : Package) :
  importMap (NewBuilder pkg) = buildImportMap pkg.
Proof. unfold NewBuilder, writeImports. now case_bool_decide. Qed.

(** C4: [buildImportMap] is a function of the package alone, and its result
    is the map that sends the [k]-th foreign package path, in order of first
    discovery along the traversal (interfaces, methods, parameters before
    returns, descending recursively, the package's own path and repetitions
    left out), to the alias [i<k>], and holds nothing else. *)
Theorem buildImportMap_first_discovery (pkg : Package) :
  buildImportMap pkg = aliasMap (discovered pkg) ∧
  NoDup (discovered pkg) ∧
  (∀ k p, discovered pkg !! k = Some p →
          buildImportMap pkg !! p = Some ("i" ++ pretty (Z.of_nat k))) ∧
  (∀ p, p ∉ discovered pkg → buildImportMap pkg !! p = None).
Proof.
  destruct (buildImportMap_discovered pkg) as [Heq Hnd].
  repeat split; try assumption.
  - intros k p Hk. rewrite Heq. now apply aliasMap_lookup.
  - intros p Hp. rewrite Heq. now apply aliasMap_lookup_None.
Qed.

Lemma buildImportMap_first_discovery_witness :
  buildImportMap samplePackage !! "io" = Some "i2".
Proof.
  apply (proj1 (proj2 (proj2 (buildImportMap_first_discovery samplePackage))) 2%nat).
  vm_compute. reflexivity.
Defined.

(** C2, as stated, fails: the one alias of [packageNamedI0] is the package's
    own name. *)
Lemma alias_equals_package_name :
  ¬ (∀ p a, buildImportMap packageNamedI0 !! p = Some a →
            a ≠ Name packageNamedI0).
Proof. intros H. apply (H "context" "i0"); vm_compute; reflexivity. Qed.

(** C2, amended: the aliases of the import map are pairwise distinct, each
    is [i<k>] for some [k] below the number of entries, and an alias equals
    the package's name exactly when that name is one of these [i<k>]. *)
Theorem buildImportMap_aliases (pkg : Package) :
  let m := buildImportMap pkg in
  (∀ p q a, m !! p = Some a → m !! q = Some a → p = q) ∧
  (∀ p a, m !! p = Some a → ∃ k, (k < size m)%nat ∧ a = alias k) ∧
  ((∃ p, m !! p = Some (Name pkg)) ↔
   (∃ k, (k < size m)%nat ∧ Name pkg = alias k)).
Proof.
  cbn zeta. destruct (buildImportMap_discovered pkg) as [-> Hnd].
  rewrite aliasMap_size by assumption.
  assert (Hidx : ∀ p a, aliasMap (discovered pkg) !! p = Some a →
            ∃ k, (k < length (discovered pkg))%nat ∧ a = alias k).
  { intros p a Hp. apply aliasMap_lookup_Some in Hp as (k & Hk & ->); [|assumption].
    exists k. split; [|reflexivity]. now apply lookup_lt_Some in Hk. }
  split; [|split; [exact Hidx|split]].
  - intros p q a Hp Hq.
    apply aliasMap_lookup_Some in Hp as (k & Hk & ->); [|assumption].
    apply aliasMap_lookup_Some in Hq as (k' & Hk' & Heq); [|assumption].
    apply alias_inj in Heq. subst k'. congruence.
  - intros [p Hp]. now apply Hidx in Hp.
  - intros (k & Hk & ->).
    apply lookup_lt_is_Some_2 in Hk as [p Hp].
    exists p. now apply aliasMap_lookup.
Qed.

Lemma buildImportMap_aliases_witness :
  ∃ k, (k < size (buildImportMap samplePackage))%nat ∧ "i1" = alias k.
Proof.
  apply (proj1 (proj2 (buildImportMap_aliases samplePackage)) "bytes" "i1").
  vm_compute. reflexivity.
Defined.

(** C5: a [Named] parameter with a package that the import map knows is
    resolved to alias, dot and type name; with a package the map does not
    know, or with no package, to the bare type name. A builder made for a
    package resolves the package's own path to the bare name. *)
Theorem resolveParam_named (b : builder) (Pkg Typ : string) :
  (∀ a, Pkg ≠ "" → importMap b !! Pkg = Some a →
        resolveParam b (NamedParam Pkg Typ) = a ++ "." ++ Typ) ∧
  (Pkg ≠ "" → importMap b !! Pkg = None →
   resolveParam b (NamedParam Pkg Typ) = Typ) ∧
  (Pkg = "" → resolveParam b (NamedParam Pkg Typ) = Typ) ∧
  (∀ pkg, resolveParam (NewBuilder pkg) (NamedParam (PkgPath pkg) Typ) = Typ).
Proof.
  repeat split.
  - intros a Hne Hp. cbn [resolveParam].
    rewrite bool_decide_eq_true_2, Hp by assumption. apply Sprintf_qualified.
  - intros Hne Hp. cbn [resolveParam].
    now rewrite bool_decide_eq_true_2, Hp by assumption.
  - intros ->. reflexivity.
  - intros pkg. cbn [resolveParam].
    rewrite NewBuilder_importMap, buildImportMap_own_path.
    now case_bool_decide.
Qed.

Lemma resolveParam_named_witness :
  resolveParam (NewBuilder samplePackage) (NamedParam "bytes" "Buffer") =
  "i1.Buffer".
Proof.
  apply (proj1 (resolveParam_named (NewBuilder samplePackage) "bytes" "Buffer") "i1").
  - discriminate.
  - vm_compute. reflexivity.
Defined.

(** ** Struct declarations *)

Lemma attrLines_app (b : builder) (l1 l2 : list Attr) :
  attrLines b (l1 ++ l2) = attrLines b l1 ++ attrLines b l2.
Proof.
  induction l1 as [|a l1 IH]; [reflexivity|].
  cbn [attrLines app]. now rewrite IH, str_app_assoc.
Qed.

Lemma WriteStruct_loop (b b0 : builder) (attrs : list Attr) :
  importMap b0 = importMap b →
  let b' := foldl (fun b attr =>
                     WriteLine b "%s %s"
                       [AStr (AName attr); AStr (resolveParam b (AType attr))])
                  b0 attrs in
  buf b' = buf b0 ++ attrLines b attrs ∧ importMap b' = importMap b.
Proof.
  cbn zeta. revert b0. induction attrs as [|attr attrs IH]; intros b0 Hmap.
  - cbn. now rewrite str_app_nil_r.
  - cbn [foldl attrLines].
    destruct (IH (WriteLine b0 "%s %s"
                    [AStr (AName attr); AStr (resolveParam b0 (AType attr))]))
      as [Hbuf Himp]; [exact Hmap|].
    rewrite Hbuf, Himp. split; [|reflexivity].
    unfold WriteLine, Write. cbn [buf]. rewrite Sprintf_attr.
    rewrite (resolveParam_ext b0 b) by exact Hmap.
    unfold attrLine. now rewrite !str_app_assoc.
Qed.

Lemma WriteStruct_buf (b : builder) (strct : Struct) :
  buf (WriteStruct b strct) =
  buf b ++ nl ++ "type " ++ SName strct ++ " struct {" ++ nl
  ++ attrLines b (SAttrs strct) ++ "}" ++ nl.
Proof.
  unfold WriteStruct.
  set (b0 := WriteLine b (nl ++ "type %s struct {") [AStr (SName strct)]).
  destruct (WriteStruct_loop b b0 (SAttrs strct)) as [Hbuf _]; [reflexivity|].
  unfold WriteLine at 1. unfold Write. cbn [buf]. rewrite Hbuf.
  unfold b0, WriteLine, Write. cbn [buf]. rewrite Sprintf_type.
  now rewrite !str_app_assoc.
Qed.

(** C10: the line of a struct attribute carries the attribute's type as
    [resolveParam] gives it under the builder's import map, the function and
    the map that [WriteMethod] uses for parameters and returns: a [Named]
    type is qualified by the alias of its package when the import map has
    one, and bare when it has none. *)
Theorem WriteStruct_attr_resolution (pkg : Package) (b : builder)
    (strct : Struct) (i : nat) (attr : Attr) :
  importMap b = buildImportMap pkg →
  SAttrs strct !! i = Some attr →
  buf (WriteStruct b strct) =
    (buf b ++ nl ++ "type " ++ SName strct ++ " struct {" ++ nl
     ++ attrLines b (take i (SAttrs strct)))
    ++ (AName attr ++ " " ++ resolveParam b (AType attr) ++ nl)
    ++ attrLines b (drop (S i) (SAttrs strct)) ++ "}" ++ nl ∧
  (∀ Pkg Typ, AType attr = NamedParam Pkg Typ →
     resolveParam b (AType attr) =
     match buildImportMap pkg !! Pkg with
     | Some a => a ++ "." ++ Typ
     | None => Typ
     end).
Proof.
  intros Hmap Hi. split.
  - rewrite WriteStruct_buf.
    rewrite <- (take_drop_middle (SAttrs strct) i attr Hi) at 1.
    rewrite attrLines_app. cbn [attrLines]. unfold attrLine.
    now rewrite !str_app_assoc.
  - intros Pkg Typ ->. cbn [resolveParam]. rewrite Hmap.
    case_bool_decide as Hne.
    + destruct (buildImportMap pkg !! Pkg); [apply Sprintf_qualified|reflexivity].
    + subst Pkg. now rewrite buildImportMap_empty_path.
Qed.

Lemma WriteStruct_attr_resolution_witness :
  resolveParam (NewBuilder samplePackage) (NamedParam "time" "Timer") = "Timer".
Proof.
  destruct (WriteStruct_attr_resolution samplePackage (NewBuilder samplePackage)
              sampleStruct 1 (mkAttr "timer" (NamedParam "time" "Timer")))
    as [_ H].
  - vm_compute. reflexivity.
  - reflexivity.
  - apply (H "time" "Timer"). reflexivity.
Defined.

(** The end-to-end scenario: [Get(context.Context, string) (int, error)]. *)
Example WriteMethod_Get :
  buf (WriteMethod {| buf := ""; importMap := buildImportMap packageNamedI0 |}
         (Some sampleStruct)
         (mkMethod "Get" [NamedParam "context" "Context"; BasicParam "string"]
                         [BasicParam "int"; BasicParam "error"])
         (fun b => b)) =
  nl ++ "func (t client) Get(p0 i0.Context, p1 string) (int, error) {" ++ nl
  ++ "}" ++ nl.
Proof. vm_compute. reflexivity. Qed.

Example WriteStruct_sample :
  buf (WriteStruct {| buf := ""; importMap := buildImportMap samplePackage |}
         sampleStruct) =
  nl ++ "type client struct {" ++ nl ++ "buf i1.Buffer" ++ nl
  ++ "timer Timer" ++ nl ++ "}" ++ nl.
Proof. vm_compute. reflexivity. Qed.

(** ** Import statements *)

(** Sorting gives the same slice whatever order the map was ranged over. *)
Lemma Strings_Permutation (l1 l2 : list string) :
  l1 ≡ₚ l2 → Strings l1 = Strings l2.
Proof.
  intros Hperm. unfold Strings. apply (Sorted_unique String.le).
  - apply Sorted_merge_sort; apply _.
  - apply Sorted_merge_sort; apply _.
  - now rewrite !merge_sort_Permutation.
Qed.

Lemma Sprintf_percentFree (s : string) : percentFree s = true → Sprintf s [] = s.
Proof.
  induction s as [|c s IH]; [reflexivity|]. cbn [percentFree Sprintf].
  case_bool_decide; cbn [negb andb]; [discriminate|].
  intros Hs. now rewrite IH.
Qed.


(** The slice [imports] after [sort.Strings]: one line per entry of the
    import map, in increasing byte order of the whole line, whatever order
    the map is ranged over. *)
Lemma sortedImports_sorted (importMap : gmap string string) :
  Sorted String.le (sortedImports importMap) ∧
  sortedImports importMap ≡ₚ map importLine (map_to_list importMap) ∧
  length (sortedImports importMap) = size importMap ∧
  (∀ entries, entries ≡ₚ map_to_list importMap →
              Strings (map importLine entries) = sortedImports importMap).
Proof.
  unfold sortedImports, Strings. repeat split.
  - apply Sorted_merge_sort; apply _.
  - apply merge_sort_Permutation.
  - rewrite merge_sort_Permutation, length_map. apply length_map_to_list.
  - intros entries Hperm. apply Strings_Permutation.
    now apply Permutation_map.
Qed.

Example sortedImports_any_order :
  Strings (map importLine [("z", "i0"); ("a", "i1")]) =
  sortedImports (buildImportMap packageZA).
Proof.
  apply (proj2 (proj2 (proj2 (sortedImports_sorted (buildImportMap packageZA))))).
  vm_compute. apply perm_swap.
Defined.

(** What [writeImports] appends when no line holds a [%]. *)
Lemma writeImports_buf (b : builder) :
  percentFree (Join (sortedImports (importMap b)) nl) = true →
  buf (writeImports b) =
  buf b ++ Join (sortedImports (importMap b)) nl
  ++ (if bool_decide (0 < length (sortedImports (importMap b)))%nat
      then nl else "").
Proof.
  intros Hfree. unfold writeImports. case_bool_decide.
  - unfold WriteLine, Write. cbn [buf].
    rewrite Sprintf_percentFree by exact Hfree.
    now rewrite str_app_assoc.
  - unfold Write. cbn [buf].
    rewrite Sprintf_percentFree by exact Hfree.
    now rewrite str_app_nil_r.
Qed.

(** ** Finalizing *)

(** C9: when [format.Source] answers with an error, [WriteTo] returns that
    error with a count of zero and the destination is left as it was, no
    write having been issued; when it answers with the reformatted text,
    that whole text is handed to the destination in one write. *)
Theorem WriteTo_atomic {error Writer : Type} (Source : string → error + string)
    (Writer_Write : Writer → string → Writer * (Z * option error))
    (b : builder) (w : Writer) :
  (∀ err, Source (buf b) = inl err →
          WriteTo Source Writer_Write b w = (w, (0%Z, Some err))) ∧
  (∀ formatted, Source (buf b) = inr formatted →
                WriteTo Source Writer_Write b w = Writer_Write w formatted).
Proof. unfold WriteTo. split; intros x ->; reflexivity. Qed.

Lemma WriteTo_atomic_witness :
  WriteTo (fun src => if bool_decide (src = "") then inl "empty source" else inr src)
          bufferWrite {| buf := ""; importMap := ∅ |} "kept" =
  ("kept", (0%Z, Some "empty source")).
Proof.
  apply (proj1 (WriteTo_atomic
                  (fun src => if bool_decide (src = "") then inl "empty source" else inr src)
                  bufferWrite {| buf := ""; importMap := ∅ |} "kept")).
  reflexivity.
Defined.

(** * Further properties of the code *)

(** ** Signatures *)

(** X1: a generated signature is the receiver [(t <implementor>) ] when an
    implementor is given, the method name, the parameters named [p0], [p1],
    ... in order with their types, joined by a comma and a space inside
    parentheses, and the return clause. *)
Theorem generateMethodSig_closed_form (w implementor methodName : string)
    (params returns : list string) :
  generateMethodSig w implementor methodName params returns =
  w ++ (if bool_decide (implementor = "") then ""
        else "(t " ++ implementor ++ ") ")
  ++ methodName ++ "("
  ++ Join (imap (fun i param => "p" ++ pretty (Z.of_nat i) ++ " " ++ param) params) ", "
  ++ ")" ++ returnClause returns.
Proof.
  rewrite generateMethodSig_eq. unfold sigThroughParams.
  change (imap positional params)
    with (imap (fun i param => "p" ++ pretty (Z.of_nat i) ++ " " ++ param) params).
  destruct (decide (implementor = "")) as [->|Hne].
  - rewrite bool_decide_eq_false_2 by (intros H; now apply H).
    rewrite bool_decide_eq_true_2 by reflexivity.
    now rewrite !str_app_assoc.
  - rewrite bool_decide_eq_true_2 by assumption.
    rewrite bool_decide_eq_false_2 by assumption.
    now rewrite !str_app_assoc.
Qed.

(** X2: [generateMethodSig] only appends: what the writer held before is
    kept in front, and the text added does not depend on it. *)
Theorem generateMethodSig_appends (w implementor methodName : string)
    (params returns : list string) :
  generateMethodSig w implementor methodName params returns =
  w ++ generateMethodSig "" implementor methodName params returns.
Proof.
  rewrite !generateMethodSig_eq. unfold sigThroughParams.
  case_bool_decide; now rewrite !str_app_assoc.
Qed.

(** ** Resolution and the import map *)

Lemma resolveParam_interface_ext (b1 b2 : builder) (Methods : list Method) :
  (∀ m, m ∈ Methods →
        resolveParams b1 (MParams m) = resolveParams b2 (MParams m) ∧
        resolveParams b1 (MReturns m) = resolveParams b2 (MReturns m)) →
  resolveParam b1 (InterfaceParam Methods) =
  resolveParam b2 (InterfaceParam Methods).
Proof.
  intros Hsig. rewrite !resolveParam_interface, !interface_loop.
  assert (Hlines : methodLines b1 Methods = methodLines b2 Methods).
  { induction Methods as [|m ms IH]; [reflexivity|]. cbn [methodLines].
    unfold methodSig. destruct (Hsig m) as [-> ->]; [left|].
    rewrite IH; [reflexivity|]. intros m' Hm'. apply Hsig. now right. }
  destruct Methods as [|m [|m' ms]]; [reflexivity| |now rewrite Hlines].
  destruct (Hsig m) as [-> ->]; [left|reflexivity].
Qed.

Lemma namedPackages_in_methods (Methods : list Method) (m : Method)
    (p : Param) (q : string) :
  m ∈ Methods → p ∈ (MParams m ++ MReturns m)%list → q ∈ namedPackages p →
  q ∈ flat_map (methodPackagesOf namedPackages) Methods.
Proof.
  intros Hm Hp Hq. apply list_elem_of_In, in_flat_map.
  exists m. split; [now apply list_elem_of_In|].
  unfold methodPackagesOf. apply in_or_app.
  apply elem_of_app in Hp as [Hp|Hp]; [left|right];
    apply in_flat_map; exists p; split; now apply list_elem_of_In.
Qed.

(** X3: resolution reads the import map only at the packages that
    [resolvePackages] collects from the parameter: two builders whose maps
    agree there resolve it to the same text, whatever their buffers hold. *)
Theorem resolveParam_reads_collected_packages (b1 b2 : builder) (p : Param) :
  (∀ q, q ∈ resolvePackages p → importMap b1 !! q = importMap b2 !! q) →
  resolveParam b1 p = resolveParam b2 p.
Proof.
  rewrite resolvePackages_namedPackages.
  induction p as
    [Typ|Pkg Typ|Typ Length IH|Typ IH|Typ IH|Key Elem IHk IHe|Methods IH|dyn]
    using Param_nested_ind; cbn [namedPackages]; intros Hmap.
  - reflexivity.
  - cbn [resolveParam]. destruct (decide (Pkg = "")) as [->|Hne].
    + now rewrite bool_decide_eq_false_2 by (intros H; now apply H).
    + rewrite bool_decide_eq_false_2 in Hmap by assumption.
      rewrite (Hmap Pkg) by apply list_elem_of_singleton, eq_refl. reflexivity.
  - cbn [resolveParam]. now rewrite IH.
  - cbn [resolveParam]. now rewrite IH.
  - cbn [resolveParam]. now rewrite IH.
  - cbn [resolveParam]. rewrite IHk, IHe; [reflexivity| |];
      intros q Hq; apply Hmap, elem_of_app; auto.
  - apply resolveParam_interface_ext. intros m Hm.
    rewrite Forall_forall in IH. destruct (IH m Hm) as [Hps Hrs].
    rewrite Forall_forall in Hps, Hrs. unfold resolveParams.
    split; apply map_ext_Forall, Forall_forall; intros p Hp.
    + apply (Hps p Hp). intros q Hq. apply Hmap.
      apply (namedPackages_in_methods Methods m p q); [assumption| |assumption].
      apply elem_of_app. now left.
    + apply (Hrs p Hp). intros q Hq. apply Hmap.
      apply (namedPackages_in_methods Methods m p q); [assumption| |assumption].
      apply elem_of_app. now right.
  - reflexivity.
Qed.

Lemma resolveParam_reads_collected_packages_witness :
  resolveParam {| buf := "func "; importMap := {["bytes" := "i1"]} |}
    (MapParam (BasicParam "int") (PointerParam (NamedParam "bytes" "Buffer"))) =
  resolveParam (NewBuilder samplePackage)
    (MapParam (BasicParam "int") (PointerParam (NamedParam "bytes" "Buffer"))).
Proof.
  apply resolveParam_reads_collected_packages.
  intros q Hq. vm_compute in Hq.
  apply list_elem_of_singleton in Hq. subst q. vm_compute. reflexivity.
Defined.

(** ** The keys of the import map *)

Lemma firstSeen_keeps (l : list string) (x : string) : x ∈ l → x ∈ firstSeen l.
Proof.
  induction l as [|y l IH]; [trivial|]. cbn [firstSeen].
  rewrite !elem_of_cons, list_elem_of_filter.
  intros [->|Hx]; [now left|].
  destruct (decide (x = y)) as [->|Hne]; [now left|right]. auto.
Qed.

Lemma traversal_elem_of (pkg : Package) (p : string) :
  p ∈ traversal pkg ↔
  ∃ i, i ∈ Interfaces pkg ∧ p ∈ resolveMethodPackages (IMethods i).
Proof.
  unfold traversal. rewrite list_elem_of_In, in_flat_map. split.
  - intros (i & Hi & Hp). exists i.
    rewrite resolveMethodPackages_flat, !list_elem_of_In. auto.
  - intros (i & Hi & Hp). exists i.
    rewrite resolveMethodPackages_flat, !list_elem_of_In in *. auto.
Qed.

Lemma buildImportMap_lookup_iff (pkg : Package) (p : string) :
  is_Some (buildImportMap pkg !! p) ↔
  p ≠ PkgPath pkg ∧
  ∃ i, i ∈ Interfaces pkg ∧ p ∈ resolveMethodPackages (IMethods i).
Proof.
  destruct (buildImportMap_discovered pkg) as [-> Hnd].
  rewrite <- traversal_elem_of. split.
  - intros [a Ha]. apply aliasMap_lookup_Some in Ha as (k & Hk & _); [|assumption].
    apply list_elem_of_lookup_2 in Hk. unfold discovered in Hk.
    apply firstSeen_elem_of, list_elem_of_filter in Hk. exact Hk.
  - intros [Hne Hp].
    assert (Hin : p ∈ discovered pkg).
    { unfold discovered. apply firstSeen_keeps, list_elem_of_filter. auto. }
    apply list_elem_of_lookup in Hin as [k Hk]. exists (alias k).
    now apply aliasMap_lookup.
Qed.

Lemma resolvePackages_nonempty (p : Param) : "" ∉ resolvePackages p.
Proof.
  rewrite resolvePackages_namedPackages. intros Hin.
  pose proof (namedPackages_nonempty p) as Hall.
  rewrite Forall_forall in Hall. now apply (Hall "" Hin).
Qed.

(** X4: a path has an alias in the import map exactly when it differs from
    the package's own path and [resolveMethodPackages] collects it from the
    methods of one of the package's interfaces. *)
Theorem buildImportMap_keys (pkg : Package) (p : string) :
  is_Some (buildImportMap pkg !! p) ↔
  p ≠ PkgPath pkg ∧
  ∃ i, i ∈ Interfaces pkg ∧ p ∈ resolveMethodPackages (IMethods i).
Proof. apply buildImportMap_lookup_iff. Qed.

(** X5: a package that occurs anywhere inside a parameter or a return of an
    interface method, and is not the package's own, is known to the builder:
    a [Named] type of it resolves to an alias [i<k>], a dot and the type
    name, never to the bare name. *)
Theorem interface_packages_resolve_qualified (pkg : Package) (i : Interface)
    (m : Method) (q : Param) (Pkg Typ : string) :
  i ∈ Interfaces pkg → m ∈ IMethods i →
  q ∈ (MParams m ++ MReturns m)%list →
  Pkg ∈ resolvePackages q → Pkg ≠ PkgPath pkg →
  ∃ k, (k < size (buildImportMap pkg))%nat ∧
       resolveParam (NewBuilder pkg) (NamedParam Pkg Typ) =
       "i" ++ pretty (Z.of_nat k) ++ "." ++ Typ.
Proof.
  intros Hi Hm Hq HPkg Hne.
  assert (Hne0 : Pkg ≠ "").
  { intros ->. now apply resolvePackages_nonempty in HPkg. }
  assert (Hsome : is_Some (buildImportMap pkg !! Pkg)).
  { apply buildImportMap_lookup_iff. split; [assumption|]. exists i.
    split; [assumption|]. rewrite resolveMethodPackages_flat.
    rewrite resolvePackages_namedPackages in HPkg.
    now apply (namedPackages_in_methods (IMethods i) m q Pkg). }
  destruct Hsome as [a Ha].
  destruct (buildImportMap_discovered pkg) as [Heq Hnd].
  pose proof Ha as Ha'. rewrite Heq in Ha'.
  apply aliasMap_lookup_Some in Ha' as (k & Hk & ->); [|assumption].
  exists k. split.
  - rewrite Heq, aliasMap_size by assumption. now apply lookup_lt_Some in Hk.
  - cbn [resolveParam]. rewrite NewBuilder_importMap, Ha.
    rewrite bool_decide_eq_true_2 by assumption.
    rewrite Sprintf_qualified. unfold alias. now rewrite !str_app_assoc.
Qed.

Lemma interface_packages_resolve_qualified_witness :
  ∃ k, (k < size (buildImportMap packageNamedI0))%nat ∧
       resolveParam (NewBuilder packageNamedI0) (NamedParam "context" "CancelFunc") =
       "i" ++ pretty (Z.of_nat k) ++ "." ++ "CancelFunc".
Proof.
  apply (interface_packages_resolve_qualified packageNamedI0
           (mkInterface "Client"
              [mkMethod "Get" [NamedParam "context" "Context"; BasicParam "string"]
                              [BasicParam "int"; BasicParam "error"]])
           (mkMethod "Get" [NamedParam "context" "Context"; BasicParam "string"]
                           [BasicParam "int"; BasicParam "error"])
           (NamedParam "context" "Context")).
  - vm_compute. left.
  - vm_compute. left.
  - vm_compute. left.
  - vm_compute. left.
  - discriminate.
Defined.

(** X6: the collection never yields the empty path, for a parameter as for
    a list of methods, so the import map holds no entry for it. *)
Theorem no_empty_package_path :
  (∀ p, "" ∉ resolvePackages p) ∧
  (∀ methods, "" ∉ resolveMethodPackages methods) ∧
  (∀ pkg, buildImportMap pkg !! "" = None).
Proof.
  split; [exact resolvePackages_nonempty|split].
  - intros methods Hin.
    apply (traversal_nonempty (mkPackage "" "" [mkInterface "" methods] [])).
    apply traversal_elem_of. exists (mkInterface "" methods).
    split; [left|exact Hin].
  - exact buildImportMap_empty_path.
Qed.

(** ** Writing keeps what was written *)

Lemma extends_refl (b : builder) : extends b b.
Proof. split; [reflexivity|]. exists "". now rewrite str_app_nil_r. Qed.

Lemma extends_trans (b1 b2 b3 : builder) :
  extends b1 b2 → extends b2 b3 → extends b1 b3.
Proof.
  intros [Hm1 [s1 Hs1]] [Hm2 [s2 Hs2]]. split; [congruence|].
  exists (s1 ++ s2). now rewrite Hs2, Hs1, str_app_assoc.
Qed.

Lemma Write_extends (b : builder) (str : string) (a : list Arg) :
  extends b (Write b str a).
Proof. split; [reflexivity|]. now exists (Sprintf str a). Qed.

Lemma WriteLine_extends (b : builder) (str : string) (a : list Arg) :
  extends b (WriteLine b str a).
Proof. apply Write_extends. Qed.

Lemma foldl_extends {A} (step : builder → A → builder) (l : list A) (b : builder) :
  (∀ b0 x, extends b0 (step b0 x)) → extends b (foldl step b l).
Proof.
  intros Hstep. revert b. induction l as [|x l IH]; intros b; cbn [foldl].
  - apply extends_refl.
  - eapply extends_trans; [apply Hstep|apply IH].
Qed.

Lemma WriteStruct_extends (b : builder) (strct : Struct) :
  extends b (WriteStruct b strct).
Proof.
  unfold WriteStruct.
  eapply extends_trans; [|apply WriteLine_extends].
  eapply extends_trans; [apply WriteLine_extends|].
  apply foldl_extends. intros b0 attr. apply WriteLine_extends.
Qed.

Lemma writeImports_extends (b : builder) : extends b (writeImports b).
Proof.
  unfold writeImports. case_bool_decide.
  - eapply extends_trans; [apply Write_extends|apply WriteLine_extends].
  - apply Write_extends.
Qed.

Lemma resolveParams_ext (b1 b2 : builder) (params : list Param) :
  importMap b1 = importMap b2 → resolveParams b1 params = resolveParams b2 params.
Proof.
  intros Hmap. unfold resolveParams. apply map_ext. intros p.
  now apply resolveParam_ext.
Qed.

Lemma generateMethodSig_app (w implementor methodName : string)
    (params returns : list string) :
  generateMethodSig w implementor methodName params returns =
  w ++ generateMethodSig "" implementor methodName params returns.
Proof.
  rewrite !generateMethodSig_eq. unfold sigThroughParams.
  case_bool_decide; now rewrite !str_app_assoc.
Qed.

Lemma WriteMethod_extends (b : builder) (strct : option Struct) (method : Method)
    (callback : builder → builder) :
  (∀ b0, extends b0 (callback b0)) →
  extends b (WriteMethod b strct method callback).
Proof.
  intros Hcb. unfold WriteMethod.
  eapply extends_trans; [|apply WriteLine_extends].
  eapply extends_trans; [|apply Hcb].
  eapply extends_trans; [|apply WriteLine_extends].
  set (b1 := match strct with
             | Some strct => Write (Write b (nl ++ "func ") []) "(t %s) " [AStr (SName strct)]
             | None => Write b (nl ++ "func ") []
             end).
  assert (Hb1 : extends b b1).
  { unfold b1. destruct strct.
    - eapply extends_trans; apply Write_extends.
    - apply Write_extends. }
  eapply extends_trans; [exact Hb1|].
  split; [reflexivity|]. cbn [buf]. rewrite generateMethodSig_app. eauto.
Qed.

(** X7: every writing primitive of the builder leaves the import map as it
    is and only appends to the buffer; [WriteMethod] does so whenever its
    callback does. A type therefore resolves to the same text before and
    after any of them. *)
Theorem builder_writes_extend :
  (∀ b str a, extends b (Write b str a)) ∧
  (∀ b str a, extends b (WriteLine b str a)) ∧
  (∀ b strct, extends b (WriteStruct b strct)) ∧
  (∀ b strct method callback,
     (∀ b0, extends b0 (callback b0)) →
     extends b (WriteMethod b strct method callback)) ∧
  (∀ b, extends b (writeImports b)) ∧
  (∀ b b' p, extends b b' → resolveParam b' p = resolveParam b p).
Proof.
  repeat split.
  - eexists. reflexivity.
  - eexists. reflexivity.
  - apply WriteStruct_extends.
  - apply WriteStruct_extends.
  - now apply WriteMethod_extends.
  - now apply WriteMethod_extends.
  - apply writeImports_extends.
  - apply writeImports_extends.
  - intros b b' p [Hmap _]. now apply resolveParam_ext.
Qed.

Lemma builder_writes_extend_witness :
  extends (NewBuilder samplePackage)
    (WriteMethod (NewBuilder samplePackage) (Some sampleStruct)
       (mkMethod "withContext" [NamedParam "context" "Context"] [])
       (fun b => WriteLine b "return" [])).
Proof.
  apply (proj1 (proj2 (proj2 (proj2 builder_writes_extend)))).
  intros b0. split; [reflexivity|]. eexists. reflexivity.
Defined.

(** ** Method declarations *)

Lemma Sprintf_func : Sprintf (nl ++ "func ") [] = nl ++ "func ".
Proof. vm_compute. reflexivity. Qed.

Lemma Sprintf_receiver (name : string) :
  Sprintf "(t %s) " [AStr name] = "(t " ++ name ++ ") ".
Proof. format_eq. Qed.

Lemma Sprintf_open : Sprintf (" {" ++ nl) [] = " {" ++ nl.
Proof. vm_compute. reflexivity. Qed.

Lemma Sprintf_close : Sprintf ("}" ++ nl) [] = "}" ++ nl.
Proof. vm_compute. reflexivity. Qed.

(** X8: [WriteMethod] hands its callback a builder with the unchanged
    import map whose buffer has grown by a line break, [func], the receiver
    when a struct is given, the signature as an anonymous interface would
    show it for this method, and an opening brace; the closing brace goes
    after whatever the callback leaves. *)
Theorem WriteMethod_frames_callback (b : builder) (strct : option Struct)
    (method : Method) (callback : builder → builder) :
  let opened :=
    {| buf := buf b ++ nl ++ "func " ++ receiver strct ++ methodSig b method
              ++ " {" ++ nl;
       importMap := importMap b |} in
  WriteMethod b strct method callback = WriteLine (callback opened) "}" [] ∧
  buf (WriteMethod b strct method callback) = buf (callback opened) ++ "}" ++ nl.
Proof.
  cbn zeta.
  assert (Hopen :
    WriteMethod b strct method callback =
    WriteLine (callback
      {| buf := buf b ++ nl ++ "func " ++ receiver strct ++ methodSig b method
                ++ " {" ++ nl;
         importMap := importMap b |}) "}" []).
  { unfold WriteMethod. do 2 f_equal.
    unfold WriteLine at 1. unfold Write at 1. cbn [buf importMap].
    rewrite Sprintf_open, generateMethodSig_app.
    destruct strct as [strct|]; unfold Write; cbn [buf importMap receiver];
      rewrite Sprintf_func, ?Sprintf_receiver; unfold methodSig;
      rewrite (resolveParams_ext _ b (MParams method)),
        (resolveParams_ext _ b (MReturns method)) by reflexivity;
      now rewrite !str_app_assoc, ?str_app_nil_r. }
  split; [exact Hopen|]. rewrite Hopen.
  unfold WriteLine, Write. cbn [buf]. now rewrite Sprintf_close.
Qed.

(** ** Packages without foreign types *)

Lemma sortedImports_empty : sortedImports ∅ = [].
Proof. unfold sortedImports. now rewrite map_to_list_empty. Qed.

Lemma Sprintf_generated :
  Sprintf ("// Code generated by tracer v0.0.1. DO NOT EDIT." ++ nl) [] =
  "// Code generated by tracer v0.0.1. DO NOT EDIT." ++ nl.
Proof. vm_compute. reflexivity. Qed.

Lemma Sprintf_package (name : string) :
  Sprintf ("package %s" ++ nl) [AStr name] = "package " ++ name ++ nl.
Proof. format_eq. Qed.

(** X9: the import map is empty exactly when the interfaces mention no
    package but the package's own, and the builder then starts with the
    generated-code marker and the package clause alone, without any import
    line. *)
Theorem NewBuilder_without_imports (pkg : Package) :
  (buildImportMap pkg = ∅ ↔
   ∀ i p, i ∈ Interfaces pkg → p ∈ resolveMethodPackages (IMethods i) →
          p = PkgPath pkg) ∧
  (buildImportMap pkg = ∅ → buf (NewBuilder pkg) = fileHeader pkg).
Proof.
  split; [split|].
  - intros Hempty i p Hi Hp. destruct (decide (p = PkgPath pkg)) as [|Hne]; [assumption|].
    assert (Hsome : is_Some (buildImportMap pkg !! p)).
    { apply buildImportMap_lookup_iff. eauto. }
    rewrite Hempty, lookup_empty in Hsome. now destruct Hsome.
  - intros Hown. apply map_empty. intros p.
    apply eq_None_not_Some. intros Hsome.
    apply buildImportMap_lookup_iff in Hsome as (Hne & i & Hi & Hp).
    apply Hne. now apply (Hown i).
  - intros Hempty. unfold NewBuilder, writeImports, WriteLine, Write.
    cbn [importMap buf]. rewrite Hempty, sortedImports_empty.
    rewrite bool_decide_eq_false_2 by (cbn; lia).
    cbn [buf Join String.concat].
    rewrite Sprintf_generated, Sprintf_package. unfold fileHeader.
    change (Sprintf "" []) with "".
    now rewrite !str_app_assoc, str_app_nil_r.
Qed.

Lemma NewBuilder_without_imports_witness :
  buf (NewBuilder (mkPackage "main" "example.com/main"
                     [mkInterface "Store"
                        [mkMethod "Put" [NamedParam "example.com/main" "Item";
                                         NamedParam "" "Key"]
                                        [BasicParam "error"]]] [])) =
  fileHeader (mkPackage "main" "example.com/main"
                [mkInterface "Store"
                   [mkMethod "Put" [NamedParam "example.com/main" "Item";
                                    NamedParam "" "Key"]
                                   [BasicParam "error"]]] []).
Proof.
  apply NewBuilder_without_imports. vm_compute. reflexivity.
Defined.

(** ** Growing a package *)

Lemma addImport_subseteq (path : string) (m : gmap string string) (p : string) :
  m ⊆ addImport path m p.
Proof.
  unfold addImport. case_bool_decide; [reflexivity|].
  destruct (m !! p) eqn:Hp; [reflexivity|]. now apply insert_subseteq.
Qed.

Lemma foldl_addImport_subseteq (path : string) (ps : list string)
    (m : gmap string string) :
  m ⊆ foldl (addImport path) m ps.
Proof.
  revert m. induction ps as [|p ps IH]; intros m; cbn [foldl]; [reflexivity|].
  etrans; [apply addImport_subseteq|apply IH].
Qed.

(** X10: interfaces appended to a package do not disturb the aliases the
    earlier interfaces were given: every entry of the import map is still
    there, under the same alias; the name and the structs of the package
    play no part. *)
Theorem buildImportMap_appended_interfaces (pkg pkg' : Package)
    (more : list Interface) :
  PkgPath pkg' = PkgPath pkg →
  Interfaces pkg' = (Interfaces pkg ++ more)%list →
  buildImportMap pkg ⊆ buildImportMap pkg'.
Proof.
  intros Hpath Hifaces. unfold buildImportMap.
  rewrite Hpath, Hifaces, foldl_app.
  generalize (foldl (fun importMap i =>
                       foldl (addImport (PkgPath pkg)) importMap
                             (resolveMethodPackages (IMethods i)))
                    ∅ (Interfaces pkg)).
  clear Hifaces.
  induction more as [|i more IH]; intros m; cbn [foldl]; [reflexivity|].
  etrans; [apply foldl_addImport_subseteq|apply IH].
Qed.

Lemma buildImportMap_appended_interfaces_witness :
  buildImportMap packageNamedI0 ⊆
  buildImportMap
    (mkPackage "renamed" "example.com/i0"
       (Interfaces packageNamedI0 ++
        [mkInterface "Closer" [mkMethod "Close" [NamedParam "io" "Writer"] []]])
       [sampleStruct]).
Proof.
  apply (buildImportMap_appended_interfaces _ _
           [mkInterface "Closer" [mkMethod "Close" [NamedParam "io" "Writer"] []]]);
    reflexivity.
Defined.

(** ** The order of the import lines *)






(** ** The head of the generated file *)

Lemma percentFree_app (s1 s2 : string) :
  percentFree (s1 ++ s2) = percentFree s1 && percentFree s2.
Proof.
  induction s1 as [|c s1 IH]; [reflexivity|].
  rewrite str_app_cons. cbn [percentFree]. rewrite IH. now rewrite andb_assoc.
Qed.

Lemma pretty_N_char_not_percent (x : N) : pretty_N_char x ≠ "%"%char.
Proof. unfold pretty_N_char. repeat case_match; discriminate. Qed.

Lemma percentFree_pretty_N_go (x : N) (s : string) :
  percentFree s = true → percentFree (pretty_N_go x s) = true.
Proof.
  revert s. induction (N.lt_wf_0 x) as [x _ IH]. intros s Hs.
  destruct (decide (0 < x)%N) as [Hpos|Hzero].
  - rewrite pretty_N_go_step by assumption. apply IH.
    + apply N.div_lt; lia.
    + cbn [percentFree]. rewrite Hs.
      now rewrite bool_decide_eq_false_2 by apply pretty_N_char_not_percent.
  - assert (x = 0%N) as -> by lia. now rewrite pretty_N_go_0.
Qed.

Lemma percentFree_alias (k : nat) : percentFree (alias k) = true.
Proof.
  unfold alias. rewrite percentFree_app. cbn [percentFree andb negb].
  rewrite bool_decide_eq_false_2 by discriminate. cbn [negb andb].
  unfold pretty, pretty_Z. destruct (Z.of_nat k) as [|x|x] eqn:Hk; [reflexivity| |lia].
  unfold pretty, pretty_positive, pretty, pretty_N.
  rewrite decide_False by discriminate. now apply percentFree_pretty_N_go.
Qed.

Lemma percentFree_importLine (p a : string) :
  percentFree p = true → percentFree a = true →
  percentFree (importLine (p, a)) = true.
Proof.
  intros Hp Ha. unfold importLine. rewrite Sprintf_import.
  rewrite !percentFree_app, Hp, Ha. reflexivity.
Qed.

Lemma percentFree_Join (l : list string) :
  Forall (fun s => percentFree s = true) l → percentFree (Join l nl) = true.
Proof.
  induction 1 as [|x l Hx Hl IH]; [reflexivity|].
  destruct l as [|y l]; [exact Hx|].
  rewrite Join_cons_cons, !percentFree_app, Hx, IH. reflexivity.
Qed.

Lemma sortedImports_percentFree (pkg : Package) :
  (∀ i p, i ∈ Interfaces pkg → p ∈ resolveMethodPackages (IMethods i) →
          percentFree p = true) →
  Forall (fun s => percentFree s = true) (sortedImports (buildImportMap pkg)).
Proof.
  intros Hfree. apply Forall_forall. intros line Hline.
  unfold sortedImports, Strings in Hline.
  rewrite merge_sort_Permutation in Hline.
  apply list_elem_of_In, in_map_iff in Hline as ([p a] & <- & Hin).
  apply list_elem_of_In, elem_of_map_to_list in Hin.
  assert (Hsome : is_Some (buildImportMap pkg !! p)) by eauto.
  apply buildImportMap_lookup_iff in Hsome as (_ & i & Hi & Hp).
  destruct (buildImportMap_discovered pkg) as [Heq Hnd]. rewrite Heq in Hin.
  apply aliasMap_lookup_Some in Hin as (k & _ & ->); [|assumption].
  apply percentFree_importLine; [now apply (Hfree i)|apply percentFree_alias].
Qed.

Lemma NewBuilder_buf_lines (pkg : Package) :
  (∀ i p, i ∈ Interfaces pkg → p ∈ resolveMethodPackages (IMethods i) →
          percentFree p = true) →
  buf (NewBuilder pkg) =
  fileHeader pkg ++ Join (sortedImports (buildImportMap pkg)) nl
  ++ (if decide (buildImportMap pkg = ∅) then "" else nl).
Proof.
  intros Hfree.
  set (b0 := WriteLine
               (WriteLine {| buf := ""; importMap := buildImportMap pkg |}
                  "// Code generated by tracer v0.0.1. DO NOT EDIT." [])
               "package %s" [AStr (Name pkg)]).
  change (NewBuilder pkg) with (writeImports b0).
  assert (Hmap : importMap b0 = buildImportMap pkg) by reflexivity.
  assert (Hbuf : buf b0 = fileHeader pkg).
  { unfold b0, WriteLine, Write. cbn [buf].
    rewrite Sprintf_generated, Sprintf_package. unfold fileHeader.
    now rewrite !str_app_assoc. }
  rewrite writeImports_buf; rewrite Hmap.
  - rewrite Hbuf. do 2 f_equal.
    assert (Hlen : length (sortedImports (buildImportMap pkg)) =
                   size (buildImportMap pkg)).
    { unfold sortedImports, Strings.
      rewrite merge_sort_Permutation, length_map. apply length_map_to_list. }
    rewrite Hlen. destruct (decide (buildImportMap pkg = ∅)) as [Hempty|Hne].
    + rewrite Hempty, map_size_empty. reflexivity.
    + rewrite bool_decide_eq_true_2; [reflexivity|].
      apply map_size_non_empty_iff in Hne. lia.
  - now apply percentFree_Join, sortedImports_percentFree.
Qed.

(** X12: when no collected package path holds a [%], a new builder holds
    the generated-code marker, the package clause and the sorted import
    lines, one per line, and nothing else. (The lines are handed to [Write]
    as a format, so a [%] in a path would be read as a verb.) *)
Theorem NewBuilder_buf (pkg : Package) :
  (∀ i p, i ∈ Interfaces pkg → p ∈ resolveMethodPackages (IMethods i) →
          percentFree p = true) →
  buf (NewBuilder pkg) =
  fileHeader pkg ++ Join (sortedImports (buildImportMap pkg)) nl
  ++ (if decide (buildImportMap pkg = ∅) then "" else nl).
Proof. apply NewBuilder_buf_lines. Qed.

Lemma NewBuilder_buf_witness :
  buf (NewBuilder samplePackage) =
  fileHeader samplePackage
  ++ Join (sortedImports (buildImportMap samplePackage)) nl
  ++ (if decide (buildImportMap samplePackage = ∅) then "" else nl).
Proof.
  apply NewBuilder_buf. intros i p Hi Hp.
  vm_compute in Hi. apply list_elem_of_singleton in Hi. subst i.
  vm_compute in Hp.
  repeat (apply elem_of_cons in Hp as [->|Hp]; [reflexivity|]).
  now apply not_elem_of_nil in Hp.
Defined.

(** ** Composite types *)

(** The arms of [resolveParam] for arrays, slices, pointers and maps, with
    their formats evaluated. *)
Lemma resolveParam_composite (b : builder) :
  (∀ Typ Length, resolveParam b (ArrayParam Typ Length) =
                 "[" ++ pretty Length ++ "]" ++ resolveParam b Typ) ∧
  (∀ Typ, resolveParam b (SliceParam Typ) = "[]" ++ resolveParam b Typ) ∧
  (∀ Typ, resolveParam b (PointerParam Typ) = "*" ++ resolveParam b Typ) ∧
  (∀ Key Elem, resolveParam b (MapParam Key Elem) =
               "map[" ++ resolveParam b Key ++ "]" ++ resolveParam b Elem).
Proof.
  repeat split; intros; cbn [resolveParam].
  - apply Sprintf_array.
  - apply Sprintf_slice.
  - apply Sprintf_pointer.
  - apply Sprintf_map.
Qed.

(** ** Looking up interfaces and structs *)

Lemma findInterfaceIn_first_match (interfaces : list Interface) (name : string) :
  let '(iface, ok) := findInterfaceIn interfaces name in
  if ok then
    ∃ before after,
      interfaces = (before ++ iface :: after)%list ∧ IName iface = name ∧
      Forall (fun i => IName i ≠ name) before
  else
    iface = {| IName := ""; IMethods := [] |} ∧
    Forall (fun i => IName i ≠ name) interfaces.
Proof.
  induction interfaces as [|i interfaces IH]; cbn [findInterfaceIn].
  - split; [reflexivity|constructor].
  - case_bool_decide as Hname.
    + exists [], interfaces. repeat split; [assumption|constructor].
    + destruct (findInterfaceIn interfaces name) as [iface [|]].
      * destruct IH as (before & after & -> & Hn & Hbefore).
        exists (i :: before), after. repeat split; [assumption|].
        now constructor.
      * destruct IH as [-> Hall]. split; [reflexivity|now constructor].
Qed.

(** X14: [findInterface] answers with the first interface of the package
    that bears the name, no interface before it bearing it; when it answers
    [false] no interface bears the name and the interface returned is the
    empty one. *)
Theorem findInterface_first_match (pkg : Package) (name : string) :
  let '(iface, ok) := findInterface pkg name in
  if ok then
    ∃ before after,
      Interfaces pkg = (before ++ iface :: after)%list ∧ IName iface = name ∧
      Forall (fun i => IName i ≠ name) before
  else
    iface = {| IName := ""; IMethods := [] |} ∧
    Forall (fun i => IName i ≠ name) (Interfaces pkg).
Proof. apply findInterfaceIn_first_match. Qed.

(** X15: [findStruct] answers with the first struct of the package that
    bears the name; when it answers [false] no struct bears the name and the
    struct returned is the empty one. *)
Theorem findStruct_first_match (pkg : Package) (name : string) :
  let '(strct, ok) := findStruct pkg name in
  if ok then
    ∃ before after,
      Structs pkg = (before ++ strct :: after)%list ∧ SName strct = name ∧
      Forall (fun s => SName s ≠ name) before
  else
    strct = {| SName := ""; SAttrs := [] |} ∧
    Forall (fun s => SName s ≠ name) (Structs pkg).
Proof.
  unfold findStruct. induction (Structs pkg) as [|s structs IH]; cbn [findStructIn].
  - split; [reflexivity|constructor].
  - case_bool_decide as Hname.
    + exists [], structs. repeat split; [assumption|constructor].
    + destruct (findStructIn structs name) as [strct [|]].
      * destruct IH as (before & after & -> & Hn & Hbefore).
        exists (s :: before), after. repeat split; [assumption|].
        now constructor.
      * destruct IH as [-> Hall]. split; [reflexivity|now constructor].
Qed.

(** ** The aliases in use *)

(** X16: the aliases of an import map with [n] entries are [i0] up to
    [i<n-1>], each given to exactly one path. *)
Theorem buildImportMap_aliases_dense (pkg : Package) (k : nat) :
  (k < size (buildImportMap pkg))%nat →
  ∃ p, buildImportMap pkg !! p = Some ("i" ++ pretty (Z.of_nat k)) ∧
       ∀ q, buildImportMap pkg !! q = Some ("i" ++ pretty (Z.of_nat k)) → q = p.
Proof.
  destruct (buildImportMap_discovered pkg) as [-> Hnd].
  rewrite aliasMap_size by assumption. intros Hk.
  apply lookup_lt_is_Some_2 in Hk as [p Hp]. exists p. split.
  - now apply aliasMap_lookup.
  - intros q Hq. change ("i" ++ pretty (Z.of_nat k)) with (alias k) in Hq.
    apply aliasMap_lookup_Some in Hq as (k' & Hk' & Heq); [|assumption].
    apply alias_inj in Heq. subst k'. congruence.
Qed.

Lemma buildImportMap_aliases_dense_witness :
  ∃ p, buildImportMap samplePackage !! p = Some ("i" ++ pretty (Z.of_nat 2)) ∧
       ∀ q, buildImportMap samplePackage !! q = Some ("i" ++ pretty (Z.of_nat 2)) →
            q = p.
Proof. apply buildImportMap_aliases_dense. vm_compute. lia. Defined.

(** ** The import block of the generated file *)



